(** * cppformat: the format scanner and the output accumulator of [cppformat.h]

    A shallow embedding of [fstring_outputbuffer], [fstring_state], [fstring],
    the [operator%] overloads and [to_string], followed by the properties of
    the scanner, of the render buffer protocol and of the reset/rescan
    discipline.

    Conventions.
    - A [std::string] is its sequence of characters, [list ascii].
    - [size_t] is an unsigned 64-bit integer, modelled in [Z]; arithmetic on
      it is written with [to_size_t], [npos] is its largest value.
    - [int] values (the result of [vsnprintf]) are in [Z]; converting one to
      [size_t] is [to_size_t].
    - A C++ exception ends the running operation and leaves the object as
      it was at the [throw]; operations are functions from a state to an
      [outcome] and the state at the end.
    - Every [fstring] handle made from one template is an alias of the one
      [fstring_state] behind it ([retain]/[release] only manage its
      storage), so the operations of a handle act on that state, which is
      threaded through.  The part on handles and the reference count puts
      the states on a heap and shows what the count does. *)

From Stdlib Require Import ZArith List Ascii String Bool Lia DecimalString.
Import ListNotations.
Local Open Scope Z_scope.

(** ** Characters, strings, [size_t] *)

Definition str := list ascii.

Definition lit (s : string) : str := list_ascii_of_string s.

Definition NUL : ascii := Ascii.zero.
Definition percent : ascii := "%"%char.

Definition size_t_modulus : Z := 2 ^ 64.
Definition to_size_t (z : Z) : Z := z mod size_t_modulus.

(** Exceptions of the standard library that the code throws or lets
    through.  [loop_budget] is not a C++ exception: it is what the bounded
    unrolling of [while(1)] returns if the bound is hit, and
    [next_fmt_budget_enough] shows it never is. *)
Inductive exn : Type :=
| invalid_argument (what : string)
| out_of_range
| length_error
| loop_budget.

Inductive outcome (A : Type) : Type :=
| Ok (a : A)
| Throw (e : exn).
Arguments Ok {A} a.
Arguments Throw {A} e.

(** ** [std::string] operations used by the code *)

Module basic_string.

Definition npos : Z := size_t_modulus - 1.

Definition size (s : str) : Z := Z.of_nat (List.length s).

(** [s[i]]; [s[size()]] is the terminator. *)
Definition at_ (s : str) (i : Z) : ascii := nth (Z.to_nat i) s NUL.

(** Index of the first character of [s] that satisfies [p], counting the
    head of [s] as index [i]. *)
Fixpoint index_from (p : ascii -> bool) (s : str) (i : Z) : Z :=
  match s with
  | [] => npos
  | a :: t => if p a then i else index_from p t (i + 1)
  end.

Definition find_if (p : ascii -> bool) (s : str) (pos : Z) : Z :=
  if size s <? pos then npos
  else index_from p (skipn (Z.to_nat pos) s) pos.

(** [s.find(c, pos)] *)
Definition find (s : str) (c : ascii) (pos : Z) : Z :=
  find_if (Ascii.eqb c) s pos.

Definition mem (c : ascii) (chars : str) : bool :=
  existsb (Ascii.eqb c) chars.

(** [s.find_first_of(chars, pos)] *)
Definition find_first_of (s chars : str) (pos : Z) : Z :=
  find_if (fun a => mem a chars) s pos.

(** [s.substr(pos, n)]: throws [std::out_of_range] when [pos > size()],
    and copies [min(n, size() - pos)] characters otherwise. *)
Definition substr (s : str) (pos n : Z) : outcome str :=
  if size s <? pos then Throw out_of_range
  else Ok (firstn (Z.to_nat (Z.min n (size s - pos)))
             (skipn (Z.to_nat pos) s)).

(** [s.substr(pos)], that is [n = npos]. *)
Definition substr_from (s : str) (pos : Z) : outcome str :=
  substr s pos npos.

End basic_string.
Import basic_string.

(** ** A state and exception monad *)

Section Monad.
Context {S : Type}.

Definition M (A : Type) : Type := S -> outcome A * S.

Definition ret {A} (a : A) : M A := fun s => (Ok a, s).
Definition throw {A} (e : exn) : M A := fun s => (Throw e, s).
Definition bind {A B} (m : M A) (k : A -> M B) : M B :=
  fun s =>
    match m s with
    | (Ok a, s') => k a s'
    | (Throw e, s') => (Throw e, s')
    end.
Definition gets {A} (f : S -> A) : M A := fun s => (Ok (f s), s).
Definition modify (f : S -> S) : M unit := fun s => (Ok tt, f s).
Definition lift {A} (o : outcome A) : M A := fun s => (o, s).
End Monad.
Arguments M : clear implicits.

Notation "x <- m ;; k" := (bind m (fun x => k))
  (at level 61, m at next level, right associativity).
Notation "m ;;; k" := (bind m (fun _ => k))
  (at level 61, right associativity).

(** ** [fstring_outputbuffer] *)

Record fstring_outputbuffer : Type := mk_outputbuffer {
  fragments : list str;
  length : Z
}.

(** [fstring_outputbuffer()] *)
Definition outputbuffer_new : fstring_outputbuffer :=
  {| fragments := []; length := 0 |}.

(** [fragments.push_back(s); length += n] *)
Definition push_fragment (s : str) (n : Z) (b : fstring_outputbuffer)
  : fstring_outputbuffer :=
  {| fragments := fragments b ++ [s];
     length := to_size_t (length b + n) |}.

(** [append(str)] *)
Definition append (s : str) : M fstring_outputbuffer unit :=
  modify (push_fragment s (size s)).

(** [fstring_outputbuffer::str()] *)
Definition outputbuffer_str (b : fstring_outputbuffer) : str :=
  List.concat (fragments b).

(** ** The low-level renderer and the values bound by [operator%] *)

(** The right operand of an [operator%] overload.  Floating point values
    are carried as their IEEE bit pattern: only the renderer reads them. *)
Inductive value : Type :=
| c_string (s : str)
| std_string (s : str)
| char_value (c : ascii)
| int_value (n : Z)
| unsigned_value (n : Z)
| float_value (bits : Z)
| double_value (bits : Z)
| pointer_value (p : Z).

(** [vsnprintf(buf, size, fstr, ap)] with one variadic argument: the buffer
    before, the size, the format and the argument give the returned [int]
    and the buffer after. *)
Definition renderer : Type := str -> Z -> str -> value -> Z * str.

(** The renderer that C99 describes, given the text [text fstr v] that the
    conversion produces ([None]: encoding error).  It writes at most
    [n - 1] characters and a terminator, and returns the length of the
    whole text, or a negative value. *)
Definition c99_vsnprintf (text : str -> value -> option str) : renderer :=
  fun bfr n fstr v =>
    match text fstr v with
    | None => (-1, bfr)
    | Some t =>
        let w := if n <=? 0 then []
                 else firstn (Z.to_nat (n - 1)) t ++ [NUL] in
        (size t, w ++ skipn (List.length w) bfr)
    end.

Section Render.

(** The renderer, [sizeof(std::string)] and [std::string::max_size()] are
    fixed by the platform. *)
Variable vsnprintf : renderer.
Variable sizeof_bfr : Z.
Variable max_size : Z.

(** [bfr.resize(n)]: throws [std::length_error] beyond [max_size()],
    pads with [char()] when growing. *)
Definition resize (bfr : str) (n : Z) : outcome str :=
  if max_size <? n then Throw length_error
  else Ok (firstn (Z.to_nat n) bfr
           ++ repeat NUL (Z.to_nat n - List.length bfr)).

(** The end of [append_fmt], from [bfr.resize(r)] to the test of [r]. *)
Definition trim_buffer (r : Z) (bfr : str) : outcome (str * Z) :=
  match resize bfr (to_size_t r) with
  | Throw e => Throw e
  | Ok bfr' =>
      if r <? 0 then Throw (invalid_argument "Format error")
      else Ok (bfr', r)
  end.

(** The part of [append_fmt] that fills [bfr]: the fragment and [r], and
    the sizes given to the successive [vsnprintf] calls.  In
    [r + 1 >= sizeof(bfr)] the left operand, an [int], is converted to
    [size_t]; [sizeof(bfr)] is the size of the [std::string] object.
    ([r + 1] overflows for [r = INT_MAX] only, which C++ leaves undefined
    and no renderer of a single value reaches.) *)
Definition render_buffer (fstr : str) (v : value)
  : outcome (str * Z) * list Z :=
  let bfr := repeat NUL 16 in
  let '(r, bfr) := vsnprintf bfr (size bfr) fstr v in
  if sizeof_bfr <=? to_size_t (r + 1) then
    match resize bfr (to_size_t (r + 1)) with
    | Throw e => (Throw e, [16])
    | Ok bfr =>
        let n := to_size_t (r + 1) in
        let '(r, bfr) := vsnprintf bfr n fstr v in
        (trim_buffer r bfr, [16; n])
    end
  else (trim_buffer r bfr, [16]).

(** [append_fmt(fstr, v)] *)
Definition append_fmt (fstr : str) (v : value)
  : M fstring_outputbuffer unit :=
  x <- lift (fst (render_buffer fstr v)) ;;
  modify (push_fragment (fst x) (snd x)).

End Render.

(** ** [fstring_state] *)

Record fstring_state : Type := mk_state {
  fstart : Z;
  fend : Z;
  format : str;
  result : fstring_outputbuffer
}.

(** [fstring_state(fmt)] *)
Definition state_new (fmt : str) : fstring_state :=
  {| fstart := 0; fend := 0; format := fmt; result := outputbuffer_new |}.

Definition set_fstart (z : Z) : M fstring_state unit :=
  modify (fun st => {| fstart := z; fend := fend st;
                       format := format st; result := result st |}).
Definition set_fend (z : Z) : M fstring_state unit :=
  modify (fun st => {| fstart := fstart st; fend := z;
                       format := format st; result := result st |}).

(** An operation of the member [result], run on the state. *)
Definition on_result {A} (m : M fstring_outputbuffer A)
  : M fstring_state A :=
  fun st =>
    let '(o, b) := m (result st) in
    (o, {| fstart := fstart st; fend := fend st;
           format := format st; result := b |}).

(** One turn of the [while(1)] of [next_fmt]: [Ok true] is [break],
    [Ok false] goes round again. *)
Definition next_fmt_turn (chars : str) : M fstring_state bool :=
  fmt <- gets format ;;
  e <- gets fend ;;
  set_fstart (find fmt percent e) ;;;
  s <- gets fstart ;;
  if (s =? npos) || (to_size_t (s + 1) =? size fmt)
  then throw (invalid_argument "Format not found")
  else
    piece <- lift (substr fmt e (to_size_t (s - e))) ;;
    on_result (append piece) ;;;
    set_fend (find_first_of fmt chars (to_size_t (s + 1))) ;;;
    e <- gets fend ;;
    if e =? npos
    then throw (invalid_argument "Invalid format")
    else
      set_fend (to_size_t (e + 1)) ;;;
      e <- gets fend ;;
      if Ascii.eqb (at_ fmt (to_size_t (e - 1))) percent
      then on_result (append (lit "%")) ;;; ret false
      else
        if find chars (at_ fmt (to_size_t (e - 1))) 0 =? npos
        then throw (invalid_argument "Format mismatch")
        else ret true.

Fixpoint next_fmt_loop (budget : nat) (chars : str)
  : M fstring_state unit :=
  match budget with
  | O => throw loop_budget
  | S budget' =>
      stop <- next_fmt_turn chars ;;
      if stop then ret tt else next_fmt_loop budget' chars
  end.

(** [next_fmt(chars)].  Every turn that goes round again moves [fend]
    forward, so the loop makes at most [format.length()] turns. *)
Definition next_fmt (chars : str) : M fstring_state str :=
  fmt <- gets format ;;
  next_fmt_loop (S (List.length fmt)) chars ;;;
  s <- gets fstart ;;
  e <- gets fend ;;
  lift (substr fmt s (to_size_t (e - s))).

(** [fstring_state::reset()] *)
Definition reset : M fstring_state unit :=
  fmt <- gets format ;;
  e <- gets fend ;;
  tail <- lift (substr_from fmt e) ;;
  on_result (append tail) ;;;
  set_fstart 0 ;;;
  set_fend 0.

(** [fstring_state::str()] *)
Definition state_str : M fstring_state str :=
  fmt <- gets format ;;
  e <- gets fend ;;
  tail <- lift (substr_from fmt e) ;;
  on_result (append tail) ;;;
  gets (fun st => outputbuffer_str (result st)).

(** ** [fstring] and the binding operators *)

(** The conversion characters an overload of [operator%] accepts: its
    first argument to [printfmt]. *)
Definition fmtChars (v : value) : str :=
  match v with
  | c_string _ | std_string _ => lit "s"
  | char_value _ => lit "c"
  | int_value _ => lit "di"
  | unsigned_value _ => lit "uxXo"
  | float_value _ | double_value _ => lit "fFeEgG"
  | pointer_value _ => lit "p"
  end.

(** What the overload hands to [printfmt]: [rhs.c_str()] for a
    [std::string], the operand itself otherwise (the promotions of a
    variadic call, [char] to [int] and [float] to [double], are the
    renderer's to read). *)
Definition operand (v : value) : value :=
  match v with
  | std_string s => c_string s
  | _ => v
  end.

Section Handle.

Variable vsnprintf : renderer.
Variable sizeof_bfr : Z.
Variable max_size : Z.

(** [fstring::printfmt(fmtChars, rhs)]; the handle it returns is an alias
    of the same state. *)
Definition printfmt (chars : str) (rhs : value) : M fstring_state unit :=
  fstr <- next_fmt chars ;;
  on_result (append_fmt vsnprintf sizeof_bfr max_size fstr rhs).

(** [fstring::append(str)] *)
Definition fstring_append (s : str) : M fstring_state unit :=
  on_result (append s).

(** [operator%(lhs, rhs)] *)
Definition op_mod (rhs : value) : M fstring_state unit :=
  printfmt (fmtChars rhs) (operand rhs).

(** [operator%=(lhs, rhs)] *)
Definition op_mod_assign (rhs : value) : M fstring_state unit :=
  op_mod rhs.

(** The [while(i != end)] loop of [to_string], over the elements that
    remain in the range. *)
Fixpoint to_string_rest (rest : list value) (sep : str)
  : M fstring_state unit :=
  match rest with
  | [] => ret tt
  | x :: rest' =>
      reset ;;;
      fstring_append sep ;;;
      op_mod_assign x ;;;
      to_string_rest rest' sep
  end.

(** [to_string(fstr, begin, end, sep)] on the range [first :: rest]; the
    code dereferences [begin] without a test, so the range has a first
    element. *)
Definition to_string (fstr : str) (first : value) (rest : list value)
  (sep : str) : outcome str :=
  fst ((op_mod_assign first ;;;
        to_string_rest rest sep ;;;
        state_str) (state_new fstr)).

(** [(fstring(fstr) % v).str()] *)
Definition format_one (fstr : str) (v : value) : outcome str :=
  fst ((op_mod v ;;; state_str) (state_new fstr)).

End Handle.

(** ** A renderer to run the code on

    The text of [printf] for the directives [%%], [%d], [%i], [%s] and [%c]
    without flags; anything else after a [%] is an encoding error.  One
    argument is available, and each conversion reads it. *)
Definition decimal (n : Z) : str :=
  lit (NilZero.string_of_int (Z.to_int n)).

Definition convert (c : ascii) (v : value) : option str :=
  match v with
  | int_value n =>
      if Ascii.eqb c "d" || Ascii.eqb c "i" then Some (decimal n) else None
  | c_string s => if Ascii.eqb c "s" then Some s else None
  | char_value a => if Ascii.eqb c "c" then Some [a] else None
  | _ => None
  end.

Fixpoint printf_text (fstr : str) (v : value) : option str :=
  match fstr with
  | [] => Some []
  | a :: t =>
      if Ascii.eqb a percent then
        match t with
        | [] => None
        | c :: t' =>
            match (if Ascii.eqb c percent then Some [percent]
                   else convert c v), printf_text t' v with
            | Some x, Some y => Some (x ++ y)
            | _, _ => None
            end
        end
      else option_map (cons a) (printf_text t v)
  end.

Definition printf_renderer : renderer := c99_vsnprintf printf_text.

(** A renderer that reports an encoding error on every call. *)
Definition failing_renderer : renderer := c99_vsnprintf (fun _ _ => None).

(** A renderer that asks for 41 characters on the first call, on the
    16-character buffer, and reports an encoding error on the second. *)
Definition failing_on_retry : renderer :=
  fun bfr n _ _ => if n =? 16 then (40, bfr) else (-1, bfr).

(** The platform constants the examples run with: [sizeof(std::string)]
    of an LP64 library with a small-string buffer, and a [max_size()]
    below [npos]. *)
Definition sizeof_string_lp64 : Z := 32.
Definition max_size_lp64 : Z := 2 ^ 62.

(** ** Notions used in the properties *)

Definition not_found : exn := invalid_argument "Format not found".
Definition invalid_format : exn := invalid_argument "Invalid format".
Definition format_mismatch : exn := invalid_argument "Format mismatch".

(** What the types of the code give: [fend] is a [size_t], and a
    [std::string] is shorter than [npos]. *)
Definition state_ok (st : fstring_state) : Prop :=
  0 <= fend st /\ size (format st) < npos.

(** [next_fmt_turn] with the [size_t] arithmetic carried out, for states
    that are [state_ok]. *)
Definition next_fmt_turn_plain (chars : str) (st : fstring_state)
  : outcome bool * fstring_state :=
  let fmt := format st in
  let e := fend st in
  let s := find fmt percent e in
  if (s =? npos) || (s + 1 =? size fmt)
  then (Throw not_found, mk_state s e fmt (result st))
  else
    let piece := firstn (Z.to_nat (s - e)) (skipn (Z.to_nat e) fmt) in
    let b := push_fragment piece (size piece) (result st) in
    let e1 := find_first_of fmt chars (s + 1) in
    if e1 =? npos then (Throw invalid_format, mk_state s npos fmt b)
    else if Ascii.eqb (at_ fmt e1) percent
    then (Ok false,
          mk_state s (e1 + 1) fmt (push_fragment (lit "%") 1 b))
    else if find chars (at_ fmt e1) 0 =? npos
    then (Throw format_mismatch, mk_state s (e1 + 1) fmt b)
    else (Ok true, mk_state s (e1 + 1) fmt b).

(** Two states with the same template and cursors, the first with the
    fragments [pre] in front of those of the second. *)
Definition same_scan (pre : list str) (st1 st2 : fstring_state) : Prop :=
  fstart st1 = fstart st2 /\ fend st1 = fend st2
  /\ format st1 = format st2
  /\ fragments (result st1) = pre ++ fragments (result st2).

(** An operation that behaves alike on such states and keeps them so: it
    reads the cursors and the template, never the accumulator. *)
Definition scan_only {A} (m : M fstring_state A) : Prop :=
  forall pre st1 st2, same_scan pre st1 st2 ->
    fst (m st1) = fst (m st2) /\ same_scan pre (snd (m st1)) (snd (m st2)).

(** An operation that leaves the template as it is. *)
Definition keeps_format {A} (m : M fstring_state A) : Prop :=
  forall st, format (snd (m st)) = format st.

(** The literal tail that [reset] and [str] append. *)
Definition tail_of (st : fstring_state) : outcome str :=
  substr_from (format st) (fend st).

(** The strings of [l] with [sep] between each consecutive pair. *)
Fixpoint join (sep : str) (l : list str) : str :=
  match l with
  | [] => []
  | x :: l' =>
      match l' with
      | [] => x
      | _ :: _ => x ++ sep ++ join sep l'
      end
  end.

(** [o] is what the template [fstr] gives for [v] alone. *)
Definition formatted (vsnprintf : renderer) (sizeof_bfr max_size : Z)
  (fstr : str) (v : value) (o : str) : Prop :=
  format_one vsnprintf sizeof_bfr max_size fstr v = Ok o.

(** ** More of the code: the stream operator and chains of bindings *)

(** [operator<<(lhs, rhs)]: the stream is the text written to it so far. *)
Definition op_shl (lhs : str) : M fstring_state str :=
  s <- state_str ;;
  ret (lhs ++ s).

(** The chain [f % v1 % v2 % ... % vn]. *)
Fixpoint op_mod_chain (vsnprintf : renderer) (sizeof_bfr max_size : Z)
  (vs : list value) : M fstring_state unit :=
  match vs with
  | [] => ret tt
  | v :: vs' =>
      op_mod vsnprintf sizeof_bfr max_size v ;;;
      op_mod_chain vsnprintf sizeof_bfr max_size vs'
  end.

(** [(fstring(fstr) % v1 % ... % vn).str()] *)
Definition format_all (vsnprintf : renderer) (sizeof_bfr max_size : Z)
  (fstr : str) (vs : list value) : outcome str :=
  fst ((op_mod_chain vsnprintf sizeof_bfr max_size vs ;;; state_str)
         (state_new fstr)).

(** ** Handles and the reference count

    The [fstring_state] objects live on a heap; an [fstring] is its member
    [state], the address of one of them.  An operation through an address
    that holds no live object is undefined behaviour: [None].  The count
    [references] is an [int]; it is carried in [Z], and no program here
    comes near [INT_MAX] handles. *)

Record fstring_object : Type := mk_object {
  object_state : fstring_state;
  references : Z
}.

Definition heap : Type := list (option fstring_object).

Definition fstring : Type := nat.

Definition HM (A : Type) : Type := heap -> option (A * heap).

Definition hret {A} (a : A) : HM A := fun hp => Some (a, hp).

Definition hbind {A B} (m : HM A) (k : A -> HM B) : HM B :=
  fun hp =>
    match m hp with
    | Some (a, hp') => k a hp'
    | None => None
    end.

Notation "x <~ m ;; k" := (hbind m (fun x => k))
  (at level 61, m at next level, right associativity).

Definition load (p : fstring) (hp : heap) : option fstring_object :=
  match nth_error hp p with
  | Some (Some o) => Some o
  | _ => None
  end.

Fixpoint store (p : nat) (c : option fstring_object) (hp : heap) : heap :=
  match hp, p with
  | [], _ => []
  | _ :: t, O => c :: t
  | x :: t, S p' => x :: store p' c t
  end.

(** [state->retain()] *)
Definition retain (p : fstring) : HM unit :=
  fun hp =>
    match load p hp with
    | Some o =>
        Some (tt, store p (Some {| object_state := object_state o;
                                   references := references o + 1 |}) hp)
    | None => None
    end.

(** [state->release()]: [delete this] once the count is 0. *)
Definition release (p : fstring) : HM unit :=
  fun hp =>
    match load p hp with
    | Some o =>
        let r := references o - 1 in
        Some (tt,
              store p (if r =? 0 then None
                       else Some {| object_state := object_state o;
                                    references := r |}) hp)
    | None => None
    end.

(** [fstring(fmt)]: [new fstring_state(fmt)], at a fresh address. *)
Definition fstring_new (fmt : str) : HM fstring :=
  fun hp =>
    Some (List.length hp,
          hp ++ [Some {| object_state := state_new fmt; references := 1 |}]).

(** [fstring(const fstring & rhs)] *)
Definition fstring_copy (rhs : fstring) : HM fstring :=
  _ <~ retain rhs ;; hret rhs.

(** [~fstring()] *)
Definition fstring_delete (this : fstring) : HM unit := release this.

(** A member function that runs [m] on [*state]. *)
Definition on_state {A} (this : fstring) (m : M fstring_state A)
  : HM (outcome A) :=
  fun hp =>
    match load this hp with
    | Some o =>
        let '(r, st') := m (object_state o) in
        Some (r, store this (Some {| object_state := st';
                                     references := references o |}) hp)
    | None => None
    end.

(** A member function that ends in [return fstring( *this)]. *)
Definition returning_copy (this : fstring) (m : M fstring_state unit)
  : HM (outcome fstring) :=
  r <~ on_state this m ;;
  match r with
  | Ok _ => p <~ fstring_copy this ;; hret (Ok p)
  | Throw e => hret (Throw e)
  end.

Section HeapHandle.

Variable vsnprintf : renderer.
Variable sizeof_bfr : Z.
Variable max_size : Z.

(** [operator%(lhs, rhs)] on handles. *)
Definition fstring_op_mod (lhs : fstring) (rhs : value)
  : HM (outcome fstring) :=
  returning_copy lhs (op_mod vsnprintf sizeof_bfr max_size rhs).

(** [fstring::append(str)] on handles. *)
Definition fstring_append_copy (this : fstring) (s : str)
  : HM (outcome fstring) :=
  returning_copy this (fstring_append s).

(** [fstring::str()] on handles. *)
Definition fstring_str (this : fstring) : HM (outcome str) :=
  on_state this state_str.

(** [fstring h1(fstr); fstring h2(h1); h2 % v; h1.str()]: the temporary
    that [h2 % v] returns is destroyed at the end of its statement. *)
Definition bind_through_copy (fstr : str) (v : value)
  : HM (fstring * fstring * outcome str) :=
  h1 <~ fstring_new fstr ;;
  h2 <~ fstring_copy h1 ;;
  t <~ fstring_op_mod h2 v ;;
  match t with
  | Ok tmp =>
      _ <~ fstring_delete tmp ;;
      s <~ fstring_str h1 ;;
      hret (h1, h2, s)
  | Throw e => hret (h1, h2, Throw e)
  end.

End HeapHandle.



(** ** More notions used in the properties *)

(** A renderer that returns an [int]. *)
Definition returns_int (vsnprintf : renderer) : Prop :=
  forall bfr n f x, - 2 ^ 31 <= fst (vsnprintf bfr n f x).



Fixpoint total_size (l : list str) : Z :=
  match l with
  | [] => 0
  | s :: l' => size s + total_size l'
  end.

(** [length] is the total size of the fragments, as a [size_t]. *)
Definition length_cached (b : fstring_outputbuffer) : Prop :=
  length b = to_size_t (total_size (fragments b)).

(** An operation that keeps a property of the state. *)
Definition preserves (P : fstring_state -> Prop) {A}
  (m : M fstring_state A) : Prop :=
  forall st, P st -> P (snd (m st)).

(** The fragments of [st'] are those of [st] and some more after them. *)
Definition extends (st st' : fstring_state) : Prop :=
  exists more, fragments (result st') = fragments (result st) ++ more.

Definition only_appends {A} (m : M fstring_state A) : Prop :=
  forall st, extends st (snd (m st)).

Definition cached (st : fstring_state) : Prop := length_cached (result st).

(** One stretch of a template with the value bound to it: literal text
    without [%], then a directive, and the fragment that [append_fmt]
    makes of the value under that directive. *)
Record segment : Type := mk_segment {
  seg_literal : str;
  seg_directive : str;
  seg_value : value;
  seg_fragment : str
}.

Definition template (segs : list segment) (tail : str) : str :=
  List.concat (map (fun g => seg_literal g ++ seg_directive g) segs) ++ tail.

Definition expected (segs : list segment) (tail : str) : str :=
  List.concat (map (fun g => seg_literal g ++ seg_fragment g) segs) ++ tail.

(** [d] is [%], then characters foreign to the whitelist of [v], then one
    character of the whitelist. *)
Definition directive_for (v : value) (d : str) : Prop :=
  exists body c,
    d = percent :: body ++ [c]
    /\ mem c (fmtChars v) = true
    /\ forallb (fun x => negb (mem x (fmtChars v))) body = true.

Definition segment_ok (vsnprintf : renderer) (sizeof_bfr max_size : Z)
  (g : segment) : Prop :=
  forallb (fun x => negb (Ascii.eqb percent x)) (seg_literal g) = true
  /\ directive_for (seg_value g) (seg_directive g)
  /\ exists r,
      fst (render_buffer vsnprintf sizeof_bfr max_size (seg_directive g)
             (operand (seg_value g)))
      = Ok (seg_fragment g, r).

(** * Properties *)

(** ** Searching a [std::string] *)

Module basic_string_facts.

Lemma npos_value : npos = 18446744073709551615.
Proof. reflexivity. Qed.

Lemma size_nonneg (s : str) : 0 <= size s.
Proof. unfold size. lia. Qed.

Lemma to_size_t_small (z : Z) : 0 <= z <= npos -> to_size_t z = z.
Proof.
  intros H. unfold to_size_t. apply Z.mod_small.
  rewrite npos_value in H. unfold size_t_modulus. lia.
Qed.

Lemma to_size_t_range (z : Z) : 0 <= to_size_t z <= npos.
Proof.
  unfold to_size_t. rewrite npos_value.
  pose proof (Z.mod_pos_bound z size_t_modulus) as H.
  unfold size_t_modulus in *. lia.
Qed.

(** What [index_from] returns: [npos] for no match, or the offset of the
    first match. *)
Lemma index_from_spec (p : ascii -> bool) (s : str) (i : Z) :
  (index_from p s i = npos /\ forall a, In a s -> p a = false)
  \/ exists k : nat,
      index_from p s i = i + Z.of_nat k
      /\ (k < List.length s)%nat
      /\ p (nth k s NUL) = true
      /\ forall j : nat, (j < k)%nat -> p (nth j s NUL) = false.
Proof.
  revert i. induction s as [|a t IH]; intros i; simpl.
  - left. split; [reflexivity | intros a []].
  - destruct (p a) eqn:Hpa.
    + right. exists 0%nat. repeat split; simpl; try lia; auto.
    + destruct (IH (i + 1)) as [[Hn Hall] | (k & Hk & Hlt & Hp & Hfirst)].
      * left. split; [assumption|]. intros b [<- | Hb]; auto.
      * right. exists (S k). repeat split; simpl; try lia; auto.
        intros [|j] Hj; simpl; auto. apply Hfirst. lia.
Qed.

Lemma nth_skipn (n k : nat) (s : str) :
  nth k (skipn n s) NUL = nth (n + k) s NUL.
Proof.
  revert s. induction n as [|n IH]; intros s; simpl; [reflexivity|].
  destruct s as [|a t]; simpl; [destruct k; reflexivity | apply IH].
Qed.

(** A match of [find_if] lies at or after [pos], inside the string, and
    is the first one. *)
Lemma find_if_found (p : ascii -> bool) (s : str) (pos r : Z) :
  0 <= pos -> find_if p s pos = r -> r <> npos ->
  pos <= r < size s
  /\ p (at_ s r) = true
  /\ forall j, pos <= j < r -> p (at_ s j) = false.
Proof.
  intros Hpos Hr Hne. unfold find_if in Hr.
  destruct (size s <? pos) eqn:Hlt; [congruence|].
  apply Z.ltb_ge in Hlt.
  destruct (index_from_spec p (skipn (Z.to_nat pos) s) pos)
    as [[Hn _] | (k & Hk & Hlen & Hp & Hfirst)]; [congruence|].
  rewrite Hk in Hr. subst r.
  rewrite length_skipn in Hlen. unfold size in *.
  rewrite nth_skipn in Hp.
  split; [lia|]. split.
  - unfold at_. replace (Z.to_nat (pos + Z.of_nat k))
      with (Z.to_nat pos + k)%nat by lia. exact Hp.
  - intros j Hj. unfold at_.
    specialize (Hfirst (Z.to_nat j - Z.to_nat pos)%nat).
    rewrite nth_skipn in Hfirst.
    replace (Z.to_nat pos + (Z.to_nat j - Z.to_nat pos))%nat
      with (Z.to_nat j) in Hfirst by lia.
    apply Hfirst. lia.
Qed.

(** Without a match in a string shorter than [npos], no character from
    [pos] on satisfies [p]. *)
Lemma find_if_none (p : ascii -> bool) (s : str) (pos : Z) :
  0 <= pos -> size s < npos -> find_if p s pos = npos ->
  forall j, pos <= j < size s -> p (at_ s j) = false.
Proof.
  intros Hpos Hsz Hr j Hj. unfold find_if in Hr.
  destruct (size s <? pos) eqn:Hlt.
  - apply Z.ltb_lt in Hlt. lia.
  - destruct (index_from_spec p (skipn (Z.to_nat pos) s) pos)
      as [[_ Hall] | (k & Hk & Hlen & _)].
    + apply Hall. unfold at_.
      replace (Z.to_nat j) with (Z.to_nat pos + (Z.to_nat j - Z.to_nat pos))%nat
        by lia.
      rewrite <- nth_skipn. apply nth_In.
      rewrite length_skipn. unfold size in *. lia.
    + rewrite length_skipn in Hlen. unfold size in *.
      rewrite Hk in Hr. lia.
Qed.

Lemma mem_In (c : ascii) (chars : str) : mem c chars = true <-> In c chars.
Proof.
  unfold mem. rewrite existsb_exists. split.
  - intros (x & Hx & Heq). apply Ascii.eqb_eq in Heq. subst. exact Hx.
  - intros H. exists c. split; [exact H | apply Ascii.eqb_refl].
Qed.

(** A member of [chars] is found by [chars.find]. *)
Lemma find_member (c : ascii) (chars : str) :
  size chars < npos -> mem c chars = true -> find chars c 0 <> npos.
Proof.
  intros Hsz Hmem Hfind. unfold find in Hfind.
  apply mem_In in Hmem. apply (In_nth _ _ NUL) in Hmem.
  destruct Hmem as (k & Hk & Hnth).
  pose proof (find_if_none (Ascii.eqb c) chars 0 ltac:(lia) Hsz Hfind
                (Z.of_nat k)) as H.
  unfold at_, size in H. rewrite Nat2Z.id, Hnth, Ascii.eqb_refl in H.
  discriminate H. lia.
Qed.

End basic_string_facts.
Import basic_string_facts.

(** ** One turn of the scanner *)

Ltac run_monad :=
  cbv [bind gets modify lift throw ret on_result append set_fstart set_fend].

Lemma next_fmt_turn_eq (chars : str) (st : fstring_state) :
  state_ok st -> next_fmt_turn chars st = next_fmt_turn_plain chars st.
Proof.
  intros [He Hsz]. unfold next_fmt_turn, next_fmt_turn_plain.
  run_monad. cbn [fstart fend format result].
  set (s := find (format st) percent (fend st)).
  destruct (s =? npos) eqn:Hs; cbn [orb]; [reflexivity|].
  apply Z.eqb_neq in Hs.
  destruct (find_if_found _ _ _ _ He (eq_refl : find _ _ _ = s) Hs)
    as (Hrange & _ & _).
  clearbody s.
  rewrite (to_size_t_small (s + 1)) by lia.
  destruct (s + 1 =? size (format st)) eqn:Hlast; [reflexivity|].
  apply Z.eqb_neq in Hlast.
  rewrite (to_size_t_small (s - fend st)) by lia.
  unfold substr.
  replace (size (format st) <? fend st) with false
    by (symmetry; apply Z.ltb_ge; lia).
  rewrite Z.min_l by lia.
  set (e1 := find_first_of (format st) chars (s + 1)).
  destruct (e1 =? npos) eqn:He1.
  { apply Z.eqb_eq in He1. rewrite He1. reflexivity. }
  apply Z.eqb_neq in He1.
  assert (Hs1 : 0 <= s + 1) by lia.
  destruct (find_if_found _ _ _ _ Hs1
              (eq_refl : find_first_of _ _ _ = e1) He1) as (Hr1 & _ & _).
  clearbody e1.
  rewrite (to_size_t_small (e1 + 1)) by lia.
  replace (e1 + 1 - 1) with e1 by lia.
  rewrite (to_size_t_small e1) by lia.
  destruct (Ascii.eqb (at_ (format st) e1) percent); [reflexivity|].
  destruct (find chars (at_ (format st) e1) 0 =? npos); reflexivity.
Qed.

(** The turn keeps the template, and its cursors stay representable. *)
Lemma next_fmt_turn_state_ok (chars : str) (st : fstring_state) :
  state_ok st ->
  state_ok (snd (next_fmt_turn chars st))
  /\ format (snd (next_fmt_turn chars st)) = format st.
Proof.
  intros Hok. rewrite (next_fmt_turn_eq _ _ Hok).
  destruct Hok as [He Hsz]. unfold next_fmt_turn_plain, state_ok.
  set (s := find (format st) percent (fend st)).
  destruct ((s =? npos) || (s + 1 =? size (format st))) eqn:Hc;
    [cbn [fst snd fend format]; auto|].
  apply orb_false_iff in Hc. destruct Hc as [Hs _]. apply Z.eqb_neq in Hs.
  destruct (find_if_found _ _ _ _ He (eq_refl : find _ _ _ = s) Hs)
    as (Hrange & _ & _).
  assert (Hs1 : 0 <= s + 1) by lia.
  set (e1 := find_first_of (format st) chars (s + 1)).
  destruct (e1 =? npos) eqn:He1; [cbn [fst snd fend format]; split; [pose proof npos_value; lia|auto]|].
  apply Z.eqb_neq in He1.
  destruct (find_if_found _ _ _ _ Hs1
              (eq_refl : find_first_of _ _ _ = e1) He1) as (Hr1 & _ & _).
  destruct (Ascii.eqb (at_ (format st) e1) percent); [cbn [fst snd fend format]; split; [lia|auto]|].
  destruct (find chars (at_ (format st) e1) 0 =? npos);
    cbn [fst snd fend format]; (split; [lia|auto]).
Qed.

(** The character that ended the search is a member of [chars]. *)
Lemma find_first_of_member (fmt chars : str) (pos : Z) :
  0 <= pos -> find_first_of fmt chars pos <> npos ->
  mem (at_ fmt (find_first_of fmt chars pos)) chars = true.
Proof.
  intros Hpos Hne.
  destruct (find_if_found _ _ _ _ Hpos
              (eq_refl : find_first_of fmt chars pos = _) Hne) as (_ & H & _).
  exact H.
Qed.

Lemma next_fmt_turn_no_mismatch (chars : str) (st : fstring_state) :
  state_ok st -> size chars < npos ->
  fst (next_fmt_turn chars st) <> Throw format_mismatch.
Proof.
  intros Hok Hchars. rewrite (next_fmt_turn_eq _ _ Hok).
  destruct Hok as [He Hsz]. unfold next_fmt_turn_plain.
  set (s := find (format st) percent (fend st)).
  destruct ((s =? npos) || (s + 1 =? size (format st))) eqn:Hc;
    [cbn [fst snd fend format]; discriminate|].
  apply orb_false_iff in Hc. destruct Hc as [Hs _]. apply Z.eqb_neq in Hs.
  destruct (find_if_found _ _ _ _ He (eq_refl : find _ _ _ = s) Hs)
    as (Hrange & _ & _).
  assert (Hs1 : 0 <= s + 1) by lia.
  destruct (find_first_of (format st) chars (s + 1) =? npos) eqn:He1;
    [cbn [fst snd fend format]; discriminate|].
  apply Z.eqb_neq in He1.
  pose proof (find_first_of_member _ _ _ Hs1 He1) as Hmem.
  destruct (Ascii.eqb _ percent); [cbn [fst snd fend format]; discriminate|].
  destruct (find chars _ 0 =? npos) eqn:Hfind; [|cbn [fst snd fend format]; discriminate].
  apply Z.eqb_eq in Hfind. exfalso.
  exact (find_member _ _ Hchars Hmem Hfind).
Qed.

(** Each turn that does not throw moves [fend] forward, by two characters
    at least, and not beyond the end of the template. *)
Lemma next_fmt_turn_advances (chars : str) (st : fstring_state) (b : bool) :
  state_ok st -> fst (next_fmt_turn chars st) = Ok b ->
  fend st + 2 <= fend (snd (next_fmt_turn chars st)) <= size (format st).
Proof.
  intros Hok. rewrite (next_fmt_turn_eq _ _ Hok).
  destruct Hok as [He Hsz]. unfold next_fmt_turn_plain.
  set (s := find (format st) percent (fend st)).
  destruct ((s =? npos) || (s + 1 =? size (format st))) eqn:Hc;
    [cbn [fst snd fend format]; discriminate|].
  apply orb_false_iff in Hc. destruct Hc as [Hs _]. apply Z.eqb_neq in Hs.
  destruct (find_if_found _ _ _ _ He (eq_refl : find _ _ _ = s) Hs)
    as (Hrange & _ & _).
  assert (Hs1 : 0 <= s + 1) by lia.
  set (e1 := find_first_of (format st) chars (s + 1)).
  destruct (e1 =? npos) eqn:He1; [cbn [fst snd fend format]; discriminate|].
  apply Z.eqb_neq in He1.
  destruct (find_if_found _ _ _ _ Hs1
              (eq_refl : find_first_of _ _ _ = e1) He1) as (Hr1 & _ & _).
  destruct (Ascii.eqb (at_ (format st) e1) percent); [cbn [fst snd fend format]; lia|].
  destruct (find chars (at_ (format st) e1) 0 =? npos); cbn [fst snd fend format]; [discriminate|lia].
Qed.

(** A turn never moves [fend] back, whatever its outcome. *)
Lemma next_fmt_turn_monotone (chars : str) (st : fstring_state) :
  state_ok st -> fend st <= fend (snd (next_fmt_turn chars st)).
Proof.
  intros Hok. rewrite (next_fmt_turn_eq _ _ Hok).
  destruct Hok as [He Hsz]. unfold next_fmt_turn_plain.
  set (s := find (format st) percent (fend st)).
  destruct ((s =? npos) || (s + 1 =? size (format st))) eqn:Hc;
    [cbn [fst snd fend format]; lia|].
  apply orb_false_iff in Hc. destruct Hc as [Hs _]. apply Z.eqb_neq in Hs.
  destruct (find_if_found _ _ _ _ He (eq_refl : find _ _ _ = s) Hs)
    as (Hrange & _ & _).
  assert (Hs1 : 0 <= s + 1) by lia.
  set (e1 := find_first_of (format st) chars (s + 1)).
  destruct (e1 =? npos) eqn:He1; [cbn [fst snd fend format]; lia|].
  apply Z.eqb_neq in He1.
  destruct (find_if_found _ _ _ _ Hs1
              (eq_refl : find_first_of _ _ _ = e1) He1) as (Hr1 & _ & _).
  destruct (Ascii.eqb (at_ (format st) e1) percent); [cbn [fst snd fend format]; lia|].
  destruct (find chars (at_ (format st) e1) 0 =? npos); cbn [fst snd fend format]; lia.
Qed.

(** The loop, one turn unrolled. *)
Lemma next_fmt_loop_unroll (budget : nat) (chars : str) (st : fstring_state) :
  next_fmt_loop (S budget) chars st =
  match next_fmt_turn chars st with
  | (Ok true, st') => (Ok tt, st')
  | (Ok false, st') => next_fmt_loop budget chars st'
  | (Throw e, st') => (Throw e, st')
  end.
Proof.
  cbn [next_fmt_loop]. unfold bind at 1.
  destruct (next_fmt_turn chars st) as [[[|]|e] st']; reflexivity.
Qed.

(** An invariant of the loop: a property of the outcome and of the end
    state that every turn establishes or hands on. *)
Lemma next_fmt_loop_ind (chars : str)
  (P : fstring_state -> outcome unit * fstring_state -> Prop) :
  (forall st, state_ok st -> P st (Throw loop_budget, st)) ->
  (forall st e, state_ok st ->
     fst (next_fmt_turn chars st) = Throw e ->
     P st (Throw e, snd (next_fmt_turn chars st))) ->
  (forall st, state_ok st ->
     fst (next_fmt_turn chars st) = Ok true ->
     P st (Ok tt, snd (next_fmt_turn chars st))) ->
  (forall st r, state_ok st ->
     fst (next_fmt_turn chars st) = Ok false ->
     P (snd (next_fmt_turn chars st)) r -> P st r) ->
  forall budget st, state_ok st -> P st (next_fmt_loop budget chars st).
Proof.
  intros Hbudget Hthrow Hbreak Hagain.
  induction budget as [|budget IH]; intros st Hok.
  - apply Hbudget, Hok.
  - rewrite next_fmt_loop_unroll.
    specialize (Hthrow st). specialize (Hbreak st). specialize (Hagain st).
    pose proof (next_fmt_turn_state_ok chars st Hok) as [Hok' _].
    destruct (next_fmt_turn chars st) as [[[|]|e] st']; cbn [fst snd] in *; auto.
Qed.

(** The budget given by [next_fmt] is never used up. *)
Lemma next_fmt_loop_budget (chars : str) (budget : nat) (st : fstring_state) :
  state_ok st ->
  (1 <= budget)%nat -> size (format st) - fend st < Z.of_nat budget ->
  fst (next_fmt_loop budget chars st) <> Throw loop_budget.
Proof.
  revert st. induction budget as [|budget IH]; intros st Hok H1 Hlt; [lia|].
  rewrite next_fmt_loop_unroll.
  pose proof (next_fmt_turn_state_ok chars st Hok) as [Hok' Hfmt].
  pose proof (next_fmt_turn_advances chars st) as Hadv.
  pose proof (next_fmt_turn_eq chars st Hok) as Heq.
  destruct (next_fmt_turn chars st) as [[[|]|e] st'] eqn:Hturn;
    cbn [fst snd] in *.
  - discriminate.
  - specialize (Hadv false Hok eq_refl). rewrite <- Hfmt in *.
    apply IH; [assumption | lia | lia].
  - intros H. injection H as ->. revert Heq. unfold next_fmt_turn_plain.
    repeat match goal with
           | |- context [if ?c then _ else _] => destruct c
           end; discriminate.
Qed.

Lemma next_fmt_after_loop (chars : str) (st : fstring_state) :
  next_fmt chars st =
  match next_fmt_loop (S (List.length (format st))) chars st with
  | (Ok _, st') =>
      (substr (format st) (fstart st') (to_size_t (fend st' - fstart st')),
       st')
  | (Throw e, st') => (Throw e, st')
  end.
Proof.
  unfold next_fmt. run_monad.
  destruct (next_fmt_loop _ chars st) as [[[]|e] st']; reflexivity.
Qed.

Lemma next_fmt_budget_enough (chars : str) (st : fstring_state) :
  state_ok st -> fst (next_fmt chars st) <> Throw loop_budget.
Proof.
  intros Hok. rewrite next_fmt_after_loop.
  pose proof (next_fmt_loop_budget chars (S (List.length (format st))) st Hok)
    as H.
  destruct (next_fmt_loop _ chars st) as [[[]|e] st']; cbn [fst] in *.
  - unfold substr. destruct (_ <? _); discriminate.
  - intros Hc. injection Hc as ->.
    apply H; [lia | destruct Hok; unfold size; lia | reflexivity].
Qed.

Lemma next_fmt_loop_no_mismatch (chars : str) (budget : nat)
  (st : fstring_state) :
  state_ok st -> size chars < npos ->
  fst (next_fmt_loop budget chars st) <> Throw format_mismatch.
Proof.
  intros Hok Hchars. revert budget st Hok.
  apply (next_fmt_loop_ind chars
           (fun _ r => fst r <> Throw format_mismatch)); cbn [fst].
  - discriminate.
  - intros st e Hok He Heq. injection Heq as ->.
    exact (next_fmt_turn_no_mismatch chars st Hok Hchars He).
  - discriminate.
  - auto.
Qed.

Lemma next_fmt_loop_monotone (chars : str) (budget : nat)
  (st : fstring_state) :
  state_ok st ->
  fend st <= fend (snd (next_fmt_loop budget chars st))
  /\ (fst (next_fmt_loop budget chars st) = Ok tt ->
      fend st < fend (snd (next_fmt_loop budget chars st))).
Proof.
  revert budget st.
  apply (next_fmt_loop_ind chars
           (fun st r => fend st <= fend (snd r)
                        /\ (fst r = Ok tt -> fend st < fend (snd r))));
    cbn [fst snd].
  - intros st _. split; [lia | discriminate].
  - intros st e Hok He. split; [|discriminate].
    apply next_fmt_turn_monotone, Hok.
  - intros st Hok Hb.
    pose proof (next_fmt_turn_advances chars st true Hok Hb). lia.
  - intros st r Hok Hb [Hle Hlt].
    pose proof (next_fmt_turn_advances chars st false Hok Hb) as Hadv.
    split; [lia | intros Hr; specialize (Hlt Hr); lia].
Qed.

(** C5: the "Format mismatch" branch of [next_fmt] is unreachable.  The
    character at [fend - 1] was found by [find_first_of] over [chars], the
    very set that [chars.find] then looks it up in; so whenever it is not
    [%] the lookup succeeds, and [next_fmt] never throws
    [std::invalid_argument("Format mismatch")], for any template, cursor and
    set of allowed characters. *)
Theorem format_mismatch_unreachable (chars : str) (st : fstring_state) :
  0 <= fend st -> size (format st) < npos -> size chars < npos ->
  fst (next_fmt chars st) <> Throw (invalid_argument "Format mismatch").
Proof.
  intros He Hsz Hchars. rewrite next_fmt_after_loop.
  pose proof (next_fmt_loop_no_mismatch chars
                (S (List.length (format st))) st (conj He Hsz) Hchars) as H.
  destruct (next_fmt_loop _ chars st) as [[[]|e] st']; cbn [fst] in *.
  - unfold substr. destruct (_ <? _); discriminate.
  - intros Hc. injection Hc as ->. apply H. reflexivity.
Qed.

(** C10: [fend] never decreases in a scanning pass.  Every turn of the
    loop that ends without an exception, whether it resolved a directive
    ([Ok true]) or consumed an escape and goes round again ([Ok false]),
    leaves [fend] strictly larger; so does every call of [next_fmt] that
    returns a directive; and a call that throws leaves [fend] no smaller
    than it was. *)
Theorem fend_never_decreases (chars : str) (st : fstring_state) :
  0 <= fend st -> size (format st) < npos ->
  (forall b, fst (next_fmt_turn chars st) = Ok b ->
             fend st < fend (snd (next_fmt_turn chars st)))
  /\ (forall d, fst (next_fmt chars st) = Ok d ->
                fend st < fend (snd (next_fmt chars st)))
  /\ fend st <= fend (snd (next_fmt chars st)).
Proof.
  intros He Hsz. assert (Hok : state_ok st) by (split; assumption).
  split; [|split].
  - intros b Hb. pose proof (next_fmt_turn_advances chars st b Hok Hb). lia.
  - intros d. rewrite next_fmt_after_loop.
    pose proof (next_fmt_loop_monotone chars
                  (S (List.length (format st))) st Hok) as [_ Hlt].
    destruct (next_fmt_loop _ chars st) as [[[]|e] st']; cbn [fst snd] in *;
      [auto | discriminate].
  - rewrite next_fmt_after_loop.
    pose proof (next_fmt_loop_monotone chars
                  (S (List.length (format st))) st Hok) as [Hle _].
    destruct (next_fmt_loop _ chars st) as [[[]|e] st']; exact Hle.
Qed.

(** ** Binding a value *)

Lemma fmtChars_no_percent (v : value) : mem percent (fmtChars v) = false.
Proof. destruct v; reflexivity. Qed.

(** What [append_fmt] can throw. *)
Lemma render_buffer_throws (vsnprintf : renderer) (sizeof_bfr max_size : Z)
  (fstr : str) (v : value) (e : exn) :
  fst (render_buffer vsnprintf sizeof_bfr max_size fstr v) = Throw e ->
  e = length_error \/ e = invalid_argument "Format error".
Proof.
  unfold render_buffer, trim_buffer, resize.
  repeat match goal with
         | |- context [let '(_, _) := ?p in _] => destruct p
         | |- context [if ?c then _ else _] => destruct c
         end; cbn [fst]; intros H; inversion H; auto.
Qed.

(** [append_fmt] leaves the buffer alone when it throws. *)
Lemma append_fmt_throw_keeps (vsnprintf : renderer) (sizeof_bfr max_size : Z)
  (fstr : str) (v : value) (b : fstring_outputbuffer) (e : exn) :
  fst (append_fmt vsnprintf sizeof_bfr max_size fstr v b) = Throw e ->
  snd (append_fmt vsnprintf sizeof_bfr max_size fstr v b) = b
  /\ fst (render_buffer vsnprintf sizeof_bfr max_size fstr v) = Throw e.
Proof.
  unfold append_fmt. run_monad.
  destruct (fst (render_buffer vsnprintf sizeof_bfr max_size fstr v));
    cbn [fst snd]; intros H; [discriminate H | injection H as ->; auto].
Qed.

(** With no [%] among the allowed characters the loop makes one turn. *)
Lemma next_fmt_one_turn (chars : str) (st : fstring_state) :
  state_ok st -> mem percent chars = false ->
  next_fmt chars st =
  match next_fmt_turn_plain chars st with
  | (Ok _, st') =>
      (substr (format st) (fstart st') (to_size_t (fend st' - fstart st')),
       st')
  | (Throw e, st') => (Throw e, st')
  end.
Proof.
  intros Hok Hchars. rewrite next_fmt_after_loop, next_fmt_loop_unroll.
  rewrite (next_fmt_turn_eq _ _ Hok).
  destruct Hok as [He Hsz]. unfold next_fmt_turn_plain.
  set (s := find (format st) percent (fend st)).
  destruct ((s =? npos) || (s + 1 =? size (format st))) eqn:Hc;
    [reflexivity|].
  apply orb_false_iff in Hc. destruct Hc as [Hs _]. apply Z.eqb_neq in Hs.
  destruct (find_if_found _ _ _ _ He (eq_refl : find _ _ _ = s) Hs)
    as (Hrange & _ & _).
  assert (Hs1 : 0 <= s + 1) by lia.
  destruct (find_first_of (format st) chars (s + 1) =? npos) eqn:He1;
    [reflexivity|].
  apply Z.eqb_neq in He1.
  pose proof (find_first_of_member _ _ _ Hs1 He1) as Hmem.
  destruct (Ascii.eqb _ percent) eqn:Hp.
  - apply Ascii.eqb_eq in Hp. rewrite Hp in Hmem. congruence.
  - destruct (find chars _ 0 =? npos); reflexivity.
Qed.

(** [operator%] on a state, with the turn in its plain form. *)
Lemma op_mod_eq (vsnprintf : renderer) (sizeof_bfr max_size : Z)
  (v : value) (st : fstring_state) :
  state_ok st ->
  op_mod vsnprintf sizeof_bfr max_size v st =
  match next_fmt_turn_plain (fmtChars v) st with
  | (Ok _, st') =>
      match substr (format st) (fstart st')
              (to_size_t (fend st' - fstart st')) with
      | Ok fstr =>
          on_result (append_fmt vsnprintf sizeof_bfr max_size fstr (operand v))
            st'
      | Throw e => (Throw e, st')
      end
  | (Throw e, st') => (Throw e, st')
  end.
Proof.
  intros Hok. unfold op_mod, printfmt. unfold bind at 1.
  rewrite (next_fmt_one_turn _ _ Hok (fmtChars_no_percent v)).
  destruct (next_fmt_turn_plain (fmtChars v) st) as [[b|e] st'];
    [|reflexivity].
  destruct (substr _ _ _); reflexivity.
Qed.

(** What [operator%] throws after a directive was found is not
    "Format not found". *)
Lemma on_result_append_fmt_throws (vsnprintf : renderer)
  (sizeof_bfr max_size : Z) (fstr : str) (v : value) (st : fstring_state) :
  fst (on_result (append_fmt vsnprintf sizeof_bfr max_size fstr v) st)
  <> Throw not_found.
Proof.
  unfold on_result.
  pose proof (append_fmt_throw_keeps vsnprintf sizeof_bfr max_size fstr v
                (result st)) as Hk.
  destruct (append_fmt vsnprintf sizeof_bfr max_size fstr v (result st))
    as [[[]|ex] b']; cbn [fst snd] in *; [discriminate|].
  destruct (Hk ex eq_refl) as [_ Hr].
  apply render_buffer_throws in Hr. destruct Hr; subst ex; discriminate.
Qed.

(** C7: a binding by one of the [operator%] overloads throws
    "Format not found" exactly when [format.find('%', fend)] finds nothing
    or finds the last character of the template, and when it does the
    accumulator is as it was before the call: nothing has been appended. *)
Theorem directive_not_found_iff (vsnprintf : renderer)
  (sizeof_bfr max_size : Z) (v : value) (st : fstring_state) :
  0 <= fend st -> size (format st) < npos ->
  let r := op_mod vsnprintf sizeof_bfr max_size v st in
  let s := find (format st) percent (fend st) in
  (fst r = Throw (invalid_argument "Format not found")
   <-> s = npos \/ s + 1 = size (format st))
  /\ (fst r = Throw (invalid_argument "Format not found") ->
      result (snd r) = result st).
Proof.
  intros He Hsz. cbv zeta. rewrite (op_mod_eq _ _ _ _ _ (conj He Hsz)).
  unfold next_fmt_turn_plain.
  set (s := find (format st) percent (fend st)).
  destruct ((s =? npos) || (s + 1 =? size (format st))) eqn:Hc.
  { cbn [fst snd result]. apply orb_true_iff in Hc.
    rewrite 2 Z.eqb_eq in Hc. unfold not_found. tauto. }
  apply orb_false_iff in Hc. rewrite 2 Z.eqb_neq in Hc.
  assert (Hgoal : forall r : outcome unit * fstring_state,
             fst r <> Throw not_found ->
             (fst r = Throw (invalid_argument "Format not found")
              <-> s = npos \/ s + 1 = size (format st))
             /\ (fst r = Throw (invalid_argument "Format not found") ->
                 result (snd r) = result st))
    by (unfold not_found; intros r Hr; tauto).
  apply Hgoal. clear Hgoal.
  destruct (find_first_of _ _ _ =? npos); [cbn [fst]; discriminate|].
  destruct (Ascii.eqb _ percent).
  - unfold substr. destruct (_ <? _); [cbn [fst]; discriminate|].
    apply on_result_append_fmt_throws.
  - destruct (find _ _ 0 =? npos); [cbn [fst]; discriminate|].
    unfold substr. destruct (_ <? _); [cbn [fst]; discriminate|].
    apply on_result_append_fmt_throws.
Qed.

(** C8: [reset] appends the tail of the template, from [fend] to its end,
    as one more fragment after the fragments accumulated so far, which stay
    as they are, and sets [fstart] and [fend] to 0; the template is
    unchanged, ready to be scanned again from its start. *)
Theorem reset_appends_tail_and_rewinds (st : fstring_state) :
  0 <= fend st <= size (format st) -> size (format st) < npos ->
  reset st =
  (Ok tt,
   {| fstart := 0;
      fend := 0;
      format := format st;
      result :=
        {| fragments :=
             fragments (result st)
             ++ [skipn (Z.to_nat (fend st)) (format st)];
           length :=
             to_size_t (length (result st)
                        + (size (format st) - fend st)) |} |}).
Proof.
  intros He Hsz. unfold reset, substr_from, substr. run_monad.
  cbn [fstart fend format result].
  replace (size (format st) <? fend st) with false
    by (symmetry; apply Z.ltb_ge; lia).
  unfold push_fragment. cbn [fragments length].
  assert (Htail : firstn (Z.to_nat (Z.min npos (size (format st) - fend st)))
                    (skipn (Z.to_nat (fend st)) (format st))
                  = skipn (Z.to_nat (fend st)) (format st)).
  { apply firstn_all2. rewrite length_skipn.
    pose proof npos_value. unfold size in *. lia. }
  rewrite Htail.
  replace (size (skipn (Z.to_nat (fend st)) (format st)))
    with (size (format st) - fend st)
    by (unfold size in *; rewrite length_skipn; lia).
  reflexivity.
Qed.

(** C4: [str()] does not throw on a state whose template still has
    unresolved directives: it returns the accumulated fragments followed by
    the template from [fend] on, copied as it stands, [%] directives
    included. *)
Theorem str_passes_tail_through (st : fstring_state) :
  0 <= fend st <= size (format st) -> size (format st) < npos ->
  fst (state_str st) =
  Ok (List.concat (fragments (result st))
      ++ skipn (Z.to_nat (fend st)) (format st)).
Proof.
  intros He Hsz. unfold state_str, substr_from, substr. run_monad.
  cbn [fstart fend format result].
  replace (size (format st) <? fend st) with false
    by (symmetry; apply Z.ltb_ge; lia).
  unfold outputbuffer_str, push_fragment. cbn [fst fragments result].
  rewrite concat_app. cbn [List.concat]. rewrite app_nil_r.
  rewrite firstn_all2; [reflexivity|].
  rewrite length_skipn. pose proof npos_value. unfold size in *. lia.
Qed.

(** ** Rescanning: the scanner does not read the accumulator *)

Lemma keeps_format_bind {A B} (m : M fstring_state A)
  (k : A -> M fstring_state B) :
  keeps_format m -> (forall a, keeps_format (k a)) -> keeps_format (bind m k).
Proof.
  intros Hm Hk st. unfold bind. specialize (Hm st).
  destruct (m st) as [[a|e] s']; cbn [snd] in *; [|exact Hm].
  rewrite Hk. exact Hm.
Qed.

Lemma keeps_format_on_result {A} (m : M fstring_outputbuffer A) :
  keeps_format (on_result m).
Proof. intros st. unfold on_result. destruct (m (result st)). reflexivity. Qed.

Ltac keeps_format_step :=
  match goal with
  | |- keeps_format (bind _ _) => apply keeps_format_bind; [|intros ?]
  | |- keeps_format (if ?c then _ else _) => destruct c
  | |- keeps_format (on_result _) => apply keeps_format_on_result
  | |- keeps_format _ => intros ?; reflexivity
  end.

Lemma keeps_format_next_fmt_loop (budget : nat) (chars : str) :
  keeps_format (next_fmt_loop budget chars).
Proof.
  induction budget as [|budget IH]; cbn [next_fmt_loop].
  - intros st. reflexivity.
  - apply keeps_format_bind.
    + unfold next_fmt_turn. repeat keeps_format_step.
    + intros [|]; [intros st; reflexivity | exact IH].
Qed.

Lemma keeps_format_op_mod (vsnprintf : renderer) (sizeof_bfr max_size : Z)
  (v : value) : keeps_format (op_mod vsnprintf sizeof_bfr max_size v).
Proof.
  unfold op_mod, printfmt, next_fmt.
  apply keeps_format_bind; [|intros; apply keeps_format_on_result].
  apply keeps_format_bind; [intros st; reflexivity | intros fmt].
  apply keeps_format_bind; [apply keeps_format_next_fmt_loop | intros _].
  repeat keeps_format_step.
Qed.

Lemma scan_only_ret {A} (a : A) : scan_only (ret a).
Proof. intros pre st1 st2 H. split; [reflexivity | exact H]. Qed.

Lemma scan_only_throw {A} (e : exn) : scan_only (@throw _ A e).
Proof. intros pre st1 st2 H. split; [reflexivity | exact H]. Qed.

Lemma scan_only_lift {A} (o : outcome A) : scan_only (lift o).
Proof. intros pre st1 st2 H. split; [reflexivity | exact H]. Qed.

Lemma scan_only_bind {A B} (m : M fstring_state A)
  (k : A -> M fstring_state B) :
  scan_only m -> (forall a, scan_only (k a)) -> scan_only (bind m k).
Proof.
  intros Hm Hk pre st1 st2 H. unfold bind.
  destruct (Hm pre st1 st2 H) as [Ho Hs].
  destruct (m st1) as [[a1|e1] s1], (m st2) as [[a2|e2] s2];
    cbn [fst snd] in *; try discriminate.
  - injection Ho as ->. apply Hk, Hs.
  - injection Ho as ->. split; [reflexivity | assumption].
Qed.

Lemma scan_only_format : scan_only (gets format).
Proof.
  intros pre st1 st2 H. unfold gets. cbn [fst snd].
  split; [|exact H]. destruct H as (_ & _ & -> & _). reflexivity.
Qed.

Lemma scan_only_fend : scan_only (gets fend).
Proof.
  intros pre st1 st2 H. unfold gets. cbn [fst snd].
  split; [|exact H]. destruct H as (_ & -> & _). reflexivity.
Qed.

Lemma scan_only_fstart : scan_only (gets fstart).
Proof.
  intros pre st1 st2 H. unfold gets. cbn [fst snd].
  split; [|exact H]. destruct H as (-> & _). reflexivity.
Qed.

Lemma scan_only_set_fstart (z : Z) : scan_only (set_fstart z).
Proof.
  intros pre st1 st2 (H1 & H2 & H3 & H4). unfold set_fstart, modify.
  split; [reflexivity|]. repeat split; assumption.
Qed.

Lemma scan_only_set_fend (z : Z) : scan_only (set_fend z).
Proof.
  intros pre st1 st2 (H1 & H2 & H3 & H4). unfold set_fend, modify.
  split; [reflexivity|]. repeat split; assumption.
Qed.

Lemma scan_only_append (s : str) : scan_only (on_result (append s)).
Proof.
  intros pre st1 st2 (H1 & H2 & H3 & H4).
  unfold on_result, append, modify, push_fragment.
  split; [reflexivity|]. repeat split; cbn; try assumption.
  rewrite H4. symmetry. apply app_assoc.
Qed.

Lemma scan_only_append_fmt (vsnprintf : renderer) (sizeof_bfr max_size : Z)
  (fstr : str) (v : value) :
  scan_only (on_result (append_fmt vsnprintf sizeof_bfr max_size fstr v)).
Proof.
  intros pre st1 st2 (H1 & H2 & H3 & H4).
  unfold on_result, append_fmt, bind, lift, modify, push_fragment.
  destruct (fst (render_buffer vsnprintf sizeof_bfr max_size fstr v))
    as [[bfr r]|e]; (split; [reflexivity|]); repeat split; cbn;
    try assumption.
  rewrite H4. symmetry. apply app_assoc.
Qed.

Create HintDb scan discriminated.
#[local] Hint Resolve scan_only_ret scan_only_throw scan_only_lift
  scan_only_format scan_only_fend scan_only_fstart scan_only_set_fstart
  scan_only_set_fend scan_only_append scan_only_append_fmt : scan.

Ltac scan_only_step :=
  match goal with
  | |- scan_only (bind _ _) => apply scan_only_bind; [|intros ?]
  | |- scan_only (if ?c then _ else _) => destruct c
  | |- scan_only _ => solve [auto with scan]
  end.

Lemma scan_only_next_fmt_turn (chars : str) :
  scan_only (next_fmt_turn chars).
Proof. unfold next_fmt_turn. repeat scan_only_step. Qed.

Lemma scan_only_next_fmt_loop (budget : nat) (chars : str) :
  scan_only (next_fmt_loop budget chars).
Proof.
  induction budget as [|budget IH]; cbn [next_fmt_loop].
  - apply scan_only_throw.
  - apply scan_only_bind; [apply scan_only_next_fmt_turn|].
    intros [|]; [apply scan_only_ret | exact IH].
Qed.

Lemma scan_only_next_fmt (chars : str) : scan_only (next_fmt chars).
Proof.
  unfold next_fmt.
  apply scan_only_bind; [apply scan_only_format | intros fmt].
  apply scan_only_bind; [apply scan_only_next_fmt_loop | intros _].
  repeat scan_only_step.
Qed.

Lemma scan_only_op_mod (vsnprintf : renderer) (sizeof_bfr max_size : Z)
  (v : value) : scan_only (op_mod vsnprintf sizeof_bfr max_size v).
Proof.
  unfold op_mod, printfmt.
  apply scan_only_bind; [apply scan_only_next_fmt | intros fstr].
  apply scan_only_append_fmt.
Qed.

(** ** The sequence helper *)

Lemma state_str_eq (st : fstring_state) :
  fst (state_str st) =
  match tail_of st with
  | Ok t => Ok (List.concat (fragments (result st)) ++ t)
  | Throw e => Throw e
  end.
Proof.
  unfold state_str, tail_of. run_monad.
  destruct (substr_from (format st) (fend st)) as [t|e]; [|reflexivity].
  cbn [fst result]. unfold outputbuffer_str, push_fragment.
  cbn [fragments]. rewrite concat_app. cbn [List.concat].
  rewrite app_nil_r. reflexivity.
Qed.

Lemma reset_eq (st : fstring_state) :
  reset st =
  match tail_of st with
  | Ok t =>
      (Ok tt,
       {| fstart := 0; fend := 0; format := format st;
          result := push_fragment t (size t) (result st) |})
  | Throw e => (Throw e, st)
  end.
Proof.
  unfold reset, tail_of. run_monad.
  destruct (substr_from (format st) (fend st)) as [t|e]; reflexivity.
Qed.

Lemma same_scan_tail (pre : list str) (st1 st2 : fstring_state) :
  same_scan pre st1 st2 -> tail_of st1 = tail_of st2.
Proof. intros (_ & He & Hf & _). unfold tail_of. rewrite He, Hf. reflexivity. Qed.

Section Join.

Variable vsnprintf : renderer.
Variable sizeof_bfr : Z.
Variable max_size : Z.
Variable fstr : str.
Variable sep : str.

Lemma format_one_inv (v : value) (o : str) :
  formatted vsnprintf sizeof_bfr max_size fstr v o ->
  fst (op_mod vsnprintf sizeof_bfr max_size v (state_new fstr)) = Ok tt
  /\ fst (state_str
            (snd (op_mod vsnprintf sizeof_bfr max_size v (state_new fstr))))
     = Ok o.
Proof.
  unfold formatted, format_one. unfold bind at 1.
  destruct (op_mod vsnprintf sizeof_bfr max_size v (state_new fstr))
    as [[[]|e] s']; cbn [fst snd]; [auto | discriminate].
Qed.

(** The loop of [to_string], entered in a state [st] that has the
    cursors of [sx], the state of a fresh handle after one binding whose
    [str()] is [o]: every later element adds [sep] and its own
    rendering of the template. *)
Lemma to_string_rest_joins (rest : list value) :
  forall (outs : list str) (pre : list str) (st sx : fstring_state)
         (o : str),
    format sx = fstr -> same_scan pre st sx ->
    fst (state_str sx) = Ok o ->
    Forall2 (formatted vsnprintf sizeof_bfr max_size fstr) rest outs ->
    fst ((to_string_rest vsnprintf sizeof_bfr max_size rest sep ;;;
          state_str) st)
    = Ok (List.concat pre ++ join sep (o :: outs)).
Proof.
  induction rest as [|y rest IH]; intros outs pre st sx o Hfmt Hscan Ho Hall.
  - revert Hfmt. inversion Hall; subst. intros Hfmt.
    cbn [to_string_rest join]. unfold bind, ret.
    rewrite state_str_eq in *. rewrite (same_scan_tail _ _ _ Hscan).
    destruct (tail_of sx) as [t|e]; [|discriminate].
    injection Ho as <-. destruct Hscan as (_ & _ & _ & ->).
    rewrite concat_app, app_assoc. reflexivity.
  - revert Hfmt. inversion Hall as [|y' oy rest' outs' Hy Hrest]; subst.
    intros Hfmt.
    cbn [to_string_rest]. unfold bind at 1 2. rewrite reset_eq.
    rewrite state_str_eq in Ho. rewrite (same_scan_tail _ _ _ Hscan).
    destruct (tail_of sx) as [t|e]; [|discriminate].
    injection Ho as <-.
    unfold bind at 1. unfold fstring_append at 1.
    unfold on_result at 1, append at 1, modify at 1.
    cbn [result fstart fend format].
    set (st2 := {| fstart := 0; fend := 0; format := format st;
                   result := _ |}).
    assert (Hscan2 : same_scan (fragments (result st2)) st2
                       (state_new fstr)).
    { destruct Hscan as (_ & _ & Hf & _). subst st2.
      repeat split; cbn; auto using app_nil_r. congruence. }
    destruct (format_one_inv y oy Hy) as [Hbind Hstr].
    pose proof (scan_only_op_mod vsnprintf sizeof_bfr max_size y
                  _ _ _ Hscan2) as [Hout Hscan3].
    pose proof (keeps_format_op_mod vsnprintf sizeof_bfr max_size y
                  (state_new fstr)) as Hkeep.
    unfold op_mod_assign. unfold bind at 1.
    destruct (op_mod vsnprintf sizeof_bfr max_size y st2) as [o3 st3].
    cbn [fst snd] in *. rewrite Hout, Hbind.
    match goal with
    | |- fst ?run = _ =>
        change run
          with ((to_string_rest vsnprintf sizeof_bfr max_size rest sep ;;;
                 state_str) st3)
    end.
    rewrite (IH outs' (fragments (result st2)) st3
               (snd (op_mod vsnprintf sizeof_bfr max_size y
                       (state_new fstr))) oy);
      try assumption.
    subst st2. cbn [result fragments push_fragment].
    destruct Hscan as (_ & _ & _ & ->).
    cbn [join]. rewrite !concat_app. cbn [List.concat].
    rewrite !app_nil_r, <- !app_assoc. reflexivity.
Qed.

(** C9: [to_string] on a range of N >= 1 values, each of which the
    template formats when taken alone, returns the N separately formatted
    strings, in order, with the separator between each consecutive pair. *)
Theorem to_string_joins_independent_formats (first : value)
  (rest : list value) (outs : list str) :
  Forall2 (formatted vsnprintf sizeof_bfr max_size fstr) (first :: rest) outs ->
  to_string vsnprintf sizeof_bfr max_size fstr first rest sep
  = Ok (join sep outs).
Proof.
  intros Hall. inversion Hall as [|v o rest' outs' Hfirst Hrest]; subst.
  destruct (format_one_inv first o Hfirst) as [Hbind Hstr].
  unfold to_string, op_mod_assign. unfold bind at 1.
  pose proof (keeps_format_op_mod vsnprintf sizeof_bfr max_size first
                (state_new fstr)) as Hkeep.
  destruct (op_mod vsnprintf sizeof_bfr max_size first (state_new fstr))
    as [o1 s1] eqn:Hop. cbn [fst snd] in *. subst o1.
  apply (to_string_rest_joins rest outs' [] s1 s1 o); auto.
  repeat split; reflexivity.
Qed.

End Join.

(** ** The render buffer *)





(** [bfr.resize(r)] comes before the test [r < 0], and a negative [int]
    is a [size_t] beyond [max_size()]: the "Format error" exception is
    never thrown. *)
Lemma format_error_unreachable (vsnprintf : renderer)
  (sizeof_bfr max_size : Z) (fstr : str) (v : value) :
  (forall bfr n f x, - 2 ^ 31 <= fst (vsnprintf bfr n f x)) ->
  max_size < 2 ^ 64 - 2 ^ 31 ->
  fst (render_buffer vsnprintf sizeof_bfr max_size fstr v)
  <> Throw (invalid_argument "Format error").
Proof.
  intros Hint Hmax.
  assert (Htrim : forall r bfr, - 2 ^ 31 <= r ->
            trim_buffer max_size r bfr
            <> Throw (invalid_argument "Format error")).
  { intros r bfr Hr. unfold trim_buffer, resize.
    destruct (r <? 0) eqn:Hneg.
    - apply Z.ltb_lt in Hneg.
      assert (Hwrap : to_size_t r = r + 2 ^ 64).
      { unfold to_size_t, size_t_modulus. symmetry.
        apply (Z.mod_unique_pos r (2 ^ 64) (- 1)). lia. lia. }
      rewrite Hwrap.
      replace (max_size <? r + 2 ^ 64) with true
        by (symmetry; apply Z.ltb_lt; lia).
      discriminate.
    - destruct (max_size <? to_size_t r); discriminate. }
  unfold render_buffer.
  destruct (vsnprintf (repeat NUL 16) (size (repeat NUL 16)) fstr v)
    as [r bfr] eqn:H1.
  pose proof (Hint (repeat NUL 16) (size (repeat NUL 16)) fstr v) as Hr.
  rewrite H1 in Hr. cbn [fst] in Hr.
  destruct (sizeof_bfr <=? to_size_t (r + 1)); [|apply Htrim, Hr].
  destruct (resize max_size bfr (to_size_t (r + 1))) as [bfr'|e] eqn:Hres.
  - destruct (vsnprintf bfr' (to_size_t (r + 1)) fstr v) as [r2 bfr2] eqn:H2.
    pose proof (Hint bfr' (to_size_t (r + 1)) fstr v) as Hr2.
    rewrite H2 in Hr2. apply Htrim, Hr2.
  - unfold resize in Hres. destruct (_ <? _); [|discriminate].
    injection Hres as <-. discriminate.
Qed.

(** ** Cursors after a binding *)

(** After a directive is resolved [fend] lies inside the template, which
    is what [reset] and [str] need. *)
Lemma next_fmt_cursor_inside (chars : str) (st : fstring_state) (d : str) :
  state_ok st -> fst (next_fmt chars st) = Ok d ->
  0 <= fend (snd (next_fmt chars st)) <= size (format (snd (next_fmt chars st)))
  /\ format (snd (next_fmt chars st)) = format st.
Proof.
  intros Hok. rewrite next_fmt_after_loop.
  pose proof (next_fmt_loop_ind chars
    (fun st r => fst r = Ok tt ->
                 fend st <= fend (snd r) <= size (format st)
                 /\ format (snd r) = format st)) as Hind.
  cbn [fst snd] in Hind.
  specialize (Hind ltac:(discriminate) ltac:(discriminate)).
  assert (Hloop : forall budget st, state_ok st ->
            fst (next_fmt_loop budget chars st) = Ok tt ->
            fend st <= fend (snd (next_fmt_loop budget chars st))
              <= size (format st)
            /\ format (snd (next_fmt_loop budget chars st)) = format st).
  { apply Hind.
    - intros st0 Hok0 Hb _.
      pose proof (next_fmt_turn_advances chars st0 true Hok0 Hb).
      pose proof (next_fmt_turn_state_ok chars st0 Hok0) as [_ Hf].
      split; [lia | exact Hf].
    - intros st0 r Hok0 Hb IH Hr.
      pose proof (next_fmt_turn_advances chars st0 false Hok0 Hb).
      pose proof (next_fmt_turn_state_ok chars st0 Hok0) as [_ Hf].
      destruct (IH Hr) as [Hrange Hfmt]. rewrite Hf in *.
      split; [lia | exact Hfmt]. }
  specialize (Hloop (S (List.length (format st))) st Hok).
  destruct (next_fmt_loop _ chars st) as [[[]|e] st']; cbn [fst snd] in *;
    [|discriminate].
  intros _. destruct (Hloop eq_refl) as [Hrange Hfmt].
  destruct Hok as [He _]. rewrite Hfmt. split; [lia | reflexivity].
Qed.

(** [operator%] that succeeds leaves a state on which [reset] and [str]
    find their tail. *)
Lemma op_mod_cursor_inside (vsnprintf : renderer) (sizeof_bfr max_size : Z)
  (v : value) (st : fstring_state) :
  state_ok st ->
  fst (op_mod vsnprintf sizeof_bfr max_size v st) = Ok tt ->
  let st' := snd (op_mod vsnprintf sizeof_bfr max_size v st) in
  0 <= fend st' <= size (format st') /\ format st' = format st.
Proof.
  intros Hok. cbv zeta. unfold op_mod, printfmt. unfold bind.
  pose proof (next_fmt_cursor_inside (fmtChars v) st) as Hin.
  destruct (next_fmt (fmtChars v) st) as [[d|e] st1]; cbn [fst snd] in *;
    [|discriminate].
  specialize (Hin d Hok eq_refl). unfold on_result.
  destruct (append_fmt _ _ _ _ _ _) as [o b]. cbn [fst snd fend format].
  intros _. exact Hin.
Qed.

(** * The code on concrete inputs *)

(** ** Instances of the properties above *)

Lemma str_passes_tail_through_witness :
  let st := snd (op_mod printf_renderer sizeof_string_lp64 max_size_lp64
                   (int_value 1) (state_new (lit "a %d b %d"))) in
  0 <= fend st <= size (format st)
  /\ size (format st) < npos
  /\ fst (state_str st) = Ok (lit "a 1 b %d").
Proof.
  cbv zeta.
  set (st := snd (op_mod printf_renderer sizeof_string_lp64 max_size_lp64
                    (int_value 1) (state_new (lit "a %d b %d")))).
  assert (H1 : 0 <= fend st <= size (format st))
    by (vm_compute; split; discriminate).
  assert (H2 : size (format st) < npos) by reflexivity.
  split; [exact H1|]. split; [exact H2|].
  exact (str_passes_tail_through st H1 H2).
Defined.

Lemma format_mismatch_unreachable_witness :
  0 <= fend (state_new (lit "%s"))
  /\ size (format (state_new (lit "%s"))) < npos
  /\ size (lit "di") < npos
  /\ fst (next_fmt (lit "di") (state_new (lit "%s")))
     <> Throw (invalid_argument "Format mismatch").
Proof.
  assert (H1 : 0 <= fend (state_new (lit "%s"))) by (cbn; lia).
  assert (H2 : size (format (state_new (lit "%s"))) < npos) by reflexivity.
  assert (H3 : size (lit "di") < npos) by reflexivity.
  split; [exact H1|]. split; [exact H2|]. split; [exact H3|].
  exact (format_mismatch_unreachable (lit "di") (state_new (lit "%s"))
           H1 H2 H3).
Defined.

Lemma directive_not_found_iff_witness :
  0 <= fend (state_new (lit "100%"))
  /\ size (format (state_new (lit "100%"))) < npos
  /\ fst (op_mod printf_renderer sizeof_string_lp64 max_size_lp64
            (int_value 1) (state_new (lit "100%")))
     = Throw (invalid_argument "Format not found")
  /\ result (snd (op_mod printf_renderer sizeof_string_lp64 max_size_lp64
                    (int_value 1) (state_new (lit "100%"))))
     = outputbuffer_new.
Proof.
  assert (H1 : 0 <= fend (state_new (lit "100%"))) by (cbn; lia).
  assert (H2 : size (format (state_new (lit "100%"))) < npos)
    by reflexivity.
  pose proof (directive_not_found_iff printf_renderer sizeof_string_lp64
                max_size_lp64 (int_value 1) (state_new (lit "100%")) H1 H2)
    as [Hiff Hkeep].
  assert (Hthrown : fst (op_mod printf_renderer sizeof_string_lp64
                           max_size_lp64 (int_value 1)
                           (state_new (lit "100%")))
                    = Throw (invalid_argument "Format not found"))
    by (apply Hiff; right; reflexivity).
  split; [exact H1|]. split; [exact H2|]. split; [exact Hthrown|].
  exact (Hkeep Hthrown).
Defined.

Lemma reset_appends_tail_and_rewinds_witness :
  let st := snd (op_mod printf_renderer sizeof_string_lp64 max_size_lp64
                   (int_value 7) (state_new (lit "<%d>"))) in
  0 <= fend st <= size (format st)
  /\ size (format st) < npos
  /\ reset st
     = (Ok tt,
        {| fstart := 0; fend := 0; format := lit "<%d>";
           result := {| fragments := [lit "<"; lit "7"; lit ">"];
                        length := 3 |} |}).
Proof.
  cbv zeta.
  set (st := snd (op_mod printf_renderer sizeof_string_lp64 max_size_lp64
                    (int_value 7) (state_new (lit "<%d>")))).
  assert (H1 : 0 <= fend st <= size (format st))
    by (vm_compute; split; discriminate).
  assert (H2 : size (format st) < npos) by reflexivity.
  split; [exact H1|]. split; [exact H2|].
  exact (reset_appends_tail_and_rewinds st H1 H2).
Defined.

Lemma to_string_joins_independent_formats_witness :
  Forall2 (formatted printf_renderer sizeof_string_lp64 max_size_lp64
             (lit "<%d>"))
    [int_value 1; int_value 2; int_value 3]
    [lit "<1>"; lit "<2>"; lit "<3>"]
  /\ to_string printf_renderer sizeof_string_lp64 max_size_lp64
       (lit "<%d>") (int_value 1) [int_value 2; int_value 3] (lit ", ")
     = Ok (lit "<1>, <2>, <3>").
Proof.
  assert (H : Forall2 (formatted printf_renderer sizeof_string_lp64
                         max_size_lp64 (lit "<%d>"))
                [int_value 1; int_value 2; int_value 3]
                [lit "<1>"; lit "<2>"; lit "<3>"])
    by (repeat constructor).
  split; [exact H|].
  exact (to_string_joins_independent_formats printf_renderer
           sizeof_string_lp64 max_size_lp64 (lit "<%d>") (lit ", ")
           (int_value 1) [int_value 2; int_value 3]
           [lit "<1>"; lit "<2>"; lit "<3>"] H).
Defined.

Lemma fend_never_decreases_witness :
  0 <= fend (state_new (lit "50%% or %d"))
  /\ size (format (state_new (lit "50%% or %d"))) < npos
  /\ fend (state_new (lit "50%% or %d"))
     < fend (snd (next_fmt_turn (lit "d%") (state_new (lit "50%% or %d"))))
  /\ fend (state_new (lit "50%% or %d"))
     < fend (snd (next_fmt (lit "d%") (state_new (lit "50%% or %d")))).
Proof.
  assert (H1 : 0 <= fend (state_new (lit "50%% or %d"))) by (cbn; lia).
  assert (H2 : size (format (state_new (lit "50%% or %d"))) < npos)
    by reflexivity.
  pose proof (fend_never_decreases (lit "d%") (state_new (lit "50%% or %d"))
                H1 H2) as (Hturn & Hcall & _).
  split; [exact H1|]. split; [exact H2|]. split.
  - exact (Hturn false eq_refl).
  - exact (Hcall (lit "%d") eq_refl).
Defined.

(** The hypothesis on [fend] in the properties of [reset] and [str()] is
    that of a handle no binding of which has thrown: "Invalid format"
    leaves [fend] at [npos], and [str()] then throws [std::out_of_range]
    from [substr]. *)
Example str_after_invalid_format :
  let st := snd (next_fmt (lit "di") (state_new (lit "%s"))) in
  fend st = npos /\ fst (state_str st) = Throw out_of_range.
Proof. split; reflexivity. Qed.

(** ** Where the code departs from its description *)

(** C1: binding a value against a directive whose conversion character is
    not in the value's whitelist is to fail with "Format mismatch".  The
    code does not: the search for the end of the directive runs over the
    whitelist alone, so it steps over the foreign conversion character.
    Binding an [int] to ["%s"] throws "Invalid format", and against
    ["%s %d"] the scanner resolves the whole of ["%s %d"] as one directive
    for the [int]. *)
Theorem mismatched_directive_is_not_reported :
  (forall (vsnprintf : renderer) (sizeof_bfr max_size n : Z),
      fst (op_mod vsnprintf sizeof_bfr max_size (int_value n)
             (state_new (lit "%s")))
      = Throw (invalid_argument "Invalid format"))
  /\ fst (next_fmt (fmtChars (int_value 42)) (state_new (lit "%s %d")))
     = Ok (lit "%s %d").
Proof.
  split.
  - intros vsnprintf sizeof_bfr max_size n. reflexivity.
  - reflexivity.
Qed.

(** C2: the end of a directive is to be the first character that is in the
    allowed set or is [%], with [%%] giving one [%] in the accumulator and
    never counting as a directive.  The code searches the allowed set
    only: with the characters of an [int], the template ["100%% of %d"]
    yields the directive ["%% of %d"] and the accumulator holds ["100"]
    with no [%]; binding against ["100%%"] throws "Invalid format"; and
    [str()] copies ["100%%"] as it stands. *)
Theorem percent_escape_is_not_collapsed :
  next_fmt (lit "di") (state_new (lit "100%% of %d"))
  = (Ok (lit "%% of %d"),
     {| fstart := 3; fend := 11; format := lit "100%% of %d";
        result := {| fragments := [lit "100"]; length := 3 |} |})
  /\ (forall (vsnprintf : renderer) (sizeof_bfr max_size n : Z),
         fst (op_mod vsnprintf sizeof_bfr max_size (int_value n)
                (state_new (lit "100%%")))
         = Throw (invalid_argument "Invalid format"))
  /\ fst (state_str (state_new (lit "100%%"))) = Ok (lit "100%%").
Proof.
  split; [reflexivity|]. split; [|reflexivity].
  intros vsnprintf sizeof_bfr max_size n. reflexivity.
Qed.

(** C3: a rendering of 16 characters or more is to be redone in a buffer
    of the required size and appended whole.  The code compares the
    required size with [sizeof(bfr)], the size of the [std::string]
    object, not with the 16 characters of the buffer: where that is 32, a
    text of 20 characters is rendered by the first call alone and the
    fragment is its first 15 characters followed by 5 NUL characters. *)
Theorem long_rendering_is_truncated :
  render_buffer printf_renderer sizeof_string_lp64 max_size_lp64
    (lit "%s") (c_string (lit "abcdefghijklmnopqrst"))
  = (Ok (lit "abcdefghijklmno" ++ repeat NUL 5, 20), [16])
  /\ format_one printf_renderer sizeof_string_lp64 max_size_lp64
       (lit "[%s]") (std_string (lit "abcdefghijklmnopqrst"))
     = Ok (lit "[abcdefghijklmno" ++ repeat NUL 5 ++ lit "]").
Proof. split; reflexivity. Qed.

(** C6: an encoding failure of the renderer is to give "Format error".
    The code resizes the buffer to [r] before it tests [r < 0], and a
    negative [r] converted to [size_t] is beyond [max_size()]: what is
    thrown is [std::length_error], on a failure of the first call and on a
    failure of the second.  The accumulator is left as it was. *)
Theorem encoding_failure_throws_length_error :
  forall (fstr : str) (v : value) (b : fstring_outputbuffer),
    append_fmt failing_renderer sizeof_string_lp64 max_size_lp64 fstr v b
    = (Throw length_error, b)
    /\ append_fmt failing_on_retry sizeof_string_lp64 max_size_lp64 fstr v b
       = (Throw length_error, b)
    /\ snd (render_buffer failing_on_retry sizeof_string_lp64 max_size_lp64
              fstr v) = [16; 41].
Proof. intros fstr v b. repeat split. Qed.

(** * Further properties of the code *)

(** ** More on the scanner *)

Lemma next_fmt_loop_budgets (chars : str) (b1 : nat) :
  forall (b2 : nat) (st : fstring_state),
    state_ok st ->
    (1 <= b1)%nat -> size (format st) - fend st < Z.of_nat b1 ->
    (1 <= b2)%nat -> size (format st) - fend st < Z.of_nat b2 ->
    next_fmt_loop b1 chars st = next_fmt_loop b2 chars st.
Proof.
  induction b1 as [|b1 IH]; intros b2 st Hok H1 Hlt1 H2 Hlt2; [lia|].
  destruct b2 as [|b2]; [lia|].
  rewrite !next_fmt_loop_unroll.
  pose proof (next_fmt_turn_state_ok chars st Hok) as [Hok' Hfmt].
  pose proof (next_fmt_turn_advances chars st) as Hadv.
  destruct (next_fmt_turn chars st) as [[[|]|e] st'] eqn:Hturn;
    cbn [fst snd] in *; try reflexivity.
  specialize (Hadv false Hok eq_refl). rewrite <- Hfmt in *.
  apply IH; try assumption; lia.
Qed.

(** The [while(1)] of [next_fmt] ends: it makes no more turns than the
    template has characters, plus one.  Any larger bound on the turns
    gives the same outcome and the same state, and the bound is never
    what stops the loop. *)
Theorem next_fmt_loop_terminates (chars : str) (st : fstring_state)
  (budget : nat) :
  0 <= fend st -> size (format st) < npos ->
  (List.length (format st) < budget)%nat ->
  next_fmt_loop budget chars st
  = next_fmt_loop (S (List.length (format st))) chars st
  /\ fst (next_fmt_loop budget chars st) <> Throw loop_budget
  /\ fst (next_fmt chars st) <> Throw loop_budget.
Proof.
  intros He Hsz Hb. assert (Hok : state_ok st) by (split; assumption).
  split; [|split].
  - apply next_fmt_loop_budgets; try assumption; unfold size; lia.
  - apply next_fmt_loop_budget; try assumption; unfold size; lia.
  - apply next_fmt_budget_enough, Hok.
Qed.

Lemma firstn_plus (s : str) (m n : nat) :
  firstn (m + n) s = firstn m s ++ firstn n (skipn m s).
Proof.
  revert s. induction m as [|m IH]; intros [|a s]; cbn;
    try rewrite firstn_nil; try reflexivity.
  f_equal. apply IH.
Qed.

(** Splitting a stretch of a string in two. *)
Lemma firstn_skipn_split (s : str) (a b c : nat) :
  (a <= b <= c)%nat ->
  firstn (c - a) (skipn a s)
  = firstn (b - a) (skipn a s) ++ firstn (c - b) (skipn b s).
Proof.
  intros H. replace (c - a)%nat with ((b - a) + (c - b))%nat by lia.
  rewrite firstn_plus. f_equal. rewrite skipn_skipn.
  replace (b - a + a)%nat with b by lia. reflexivity.
Qed.

(** What [next_fmt] returns, for a whitelist without [%]: the directive
    is the stretch of the template from the first [%] at or after [fend]
    up to and including the first whitelisted character after it, flags
    and width in between kept as they are; [fstart] and [fend] are left
    at its two ends; the text skipped before the [%] is the one fragment
    appended; and that text followed by the directive is exactly the part
    of the template the cursor moved over. *)
Theorem next_fmt_resolves_first_directive (chars : str)
  (st st' : fstring_state) (d : str) :
  0 <= fend st -> size (format st) < npos ->
  mem percent chars = false ->
  next_fmt chars st = (Ok d, st') ->
  let fmt := format st in
  let s := fstart st' in
  let e := fend st' in
  format st' = fmt
  /\ fend st <= s /\ s + 2 <= e <= size fmt
  /\ at_ fmt s = percent
  /\ (forall j, fend st <= j < s -> at_ fmt j <> percent)
  /\ mem (at_ fmt (e - 1)) chars = true
  /\ (forall j, s < j < e - 1 -> mem (at_ fmt j) chars = false)
  /\ d = firstn (Z.to_nat (e - s)) (skipn (Z.to_nat s) fmt)
  /\ fragments (result st')
     = fragments (result st)
       ++ [firstn (Z.to_nat (s - fend st)) (skipn (Z.to_nat (fend st)) fmt)]
  /\ firstn (Z.to_nat (e - fend st)) (skipn (Z.to_nat (fend st)) fmt)
     = List.concat [firstn (Z.to_nat (s - fend st))
                      (skipn (Z.to_nat (fend st)) fmt); d].
Proof.
  intros He Hsz Hchars. cbv zeta.
  rewrite (next_fmt_one_turn _ _ (conj He Hsz) Hchars).
  unfold next_fmt_turn_plain.
  set (s := find (format st) percent (fend st)).
  destruct ((s =? npos) || (s + 1 =? size (format st))) eqn:Hc;
    [discriminate|].
  apply orb_false_iff in Hc. destruct Hc as [Hs Hlast].
  apply Z.eqb_neq in Hs. apply Z.eqb_neq in Hlast.
  destruct (find_if_found _ _ _ _ He (eq_refl : find _ _ _ = s) Hs)
    as (Hrange & Hat & Hbefore).
  assert (Hs1 : 0 <= s + 1) by lia.
  set (e1 := find_first_of (format st) chars (s + 1)).
  destruct (e1 =? npos) eqn:He1; [discriminate|].
  apply Z.eqb_neq in He1.
  destruct (find_if_found _ _ _ _ Hs1
              (eq_refl : find_first_of _ _ _ = e1) He1)
    as (Hr1 & Hmem & Hbetween).
  clearbody s e1.
  destruct (Ascii.eqb (at_ (format st) e1) percent) eqn:Hp.
  { apply Ascii.eqb_eq in Hp. rewrite Hp in Hmem. congruence. }
  destruct (find chars (at_ (format st) e1) 0 =? npos); [discriminate|].
  cbn [fstart fend format result]. unfold substr.
  replace (size (format st) <? s) with false
    by (symmetry; apply Z.ltb_ge; lia).
  rewrite (to_size_t_small (e1 + 1 - s)) by lia.
  rewrite Z.min_l by lia.
  intros Heq. injection Heq as <- <-.
  cbn [fstart fend format result fragments push_fragment].
  apply Ascii.eqb_eq in Hat.
  split; [reflexivity|]. split; [lia|]. split; [lia|].
  split; [symmetry; exact Hat|]. split.
  { intros j Hj Hpj. specialize (Hbefore j Hj).
    rewrite Hpj, Ascii.eqb_refl in Hbefore. discriminate. }
  replace (e1 + 1 - 1) with e1 by lia.
  split; [exact Hmem|]. split.
  { intros j Hj. apply Hbetween. lia. }
  split; [reflexivity|]. split; [reflexivity|].
  cbn [List.concat]. rewrite app_nil_r.
  replace (Z.to_nat (e1 + 1 - fend st))
    with (Z.to_nat (e1 + 1) - Z.to_nat (fend st))%nat by lia.
  replace (Z.to_nat (s - fend st))
    with (Z.to_nat s - Z.to_nat (fend st))%nat by lia.
  replace (Z.to_nat (e1 + 1 - s))
    with (Z.to_nat (e1 + 1) - Z.to_nat s)%nat by lia.
  apply firstn_skipn_split. lia.
Qed.

Lemma on_result_append_fmt_not_invalid (vsnprintf : renderer)
  (sizeof_bfr max_size : Z) (fstr : str) (v : value) (st : fstring_state) :
  fst (on_result (append_fmt vsnprintf sizeof_bfr max_size fstr v) st)
  <> Throw invalid_format.
Proof.
  unfold on_result.
  pose proof (append_fmt_throw_keeps vsnprintf sizeof_bfr max_size fstr v
                (result st)) as Hk.
  destruct (append_fmt vsnprintf sizeof_bfr max_size fstr v (result st))
    as [[[]|ex] b']; cbn [fst snd] in *; [discriminate|].
  destruct (Hk ex eq_refl) as [_ Hr].
  apply render_buffer_throws in Hr. destruct Hr; subst ex; discriminate.
Qed.

(** A binding by an [operator%] overload throws "Invalid format" exactly
    when a [%] that is not the last character is found and no character
    of the overload's whitelist follows it.  The literal text before the
    [%] has then been appended already and stays, and [fend] is left at
    [npos]. *)
Theorem invalid_format_iff (vsnprintf : renderer)
  (sizeof_bfr max_size : Z) (v : value) (st : fstring_state) :
  0 <= fend st -> size (format st) < npos ->
  let r := op_mod vsnprintf sizeof_bfr max_size v st in
  let fmt := format st in
  let s := find fmt percent (fend st) in
  (fst r = Throw (invalid_argument "Invalid format")
   <-> s <> npos /\ s + 1 <> size fmt
       /\ find_first_of fmt (fmtChars v) (s + 1) = npos)
  /\ (fst r = Throw (invalid_argument "Invalid format") ->
      fstart (snd r) = s /\ fend (snd r) = npos
      /\ fragments (result (snd r))
         = fragments (result st)
           ++ [firstn (Z.to_nat (s - fend st))
                 (skipn (Z.to_nat (fend st)) fmt)]).
Proof.
  intros He Hsz. cbv zeta. rewrite (op_mod_eq _ _ _ _ _ (conj He Hsz)).
  unfold next_fmt_turn_plain.
  set (s := find (format st) percent (fend st)).
  destruct ((s =? npos) || (s + 1 =? size (format st))) eqn:Hc.
  { cbn [fst snd]. apply orb_true_iff in Hc. rewrite 2 Z.eqb_eq in Hc.
    split; [split|]; [discriminate | tauto | discriminate]. }
  apply orb_false_iff in Hc. rewrite 2 Z.eqb_neq in Hc.
  destruct (find_first_of (format st) (fmtChars v) (s + 1) =? npos) eqn:He1.
  { apply Z.eqb_eq in He1. cbn [fst snd fstart fend result fragments
                                  push_fragment].
    split; [split; [tauto | reflexivity] | auto]. }
  apply Z.eqb_neq in He1.
  assert (Hgoal : forall r : outcome unit * fstring_state,
             fst r <> Throw invalid_format ->
             (fst r = Throw (invalid_argument "Invalid format")
              <-> s <> npos /\ s + 1 <> size (format st)
                  /\ find_first_of (format st) (fmtChars v) (s + 1) = npos)
             /\ (fst r = Throw (invalid_argument "Invalid format") ->
                 fstart (snd r) = s /\ fend (snd r) = npos
                 /\ fragments (result (snd r))
                    = fragments (result st)
                      ++ [firstn (Z.to_nat (s - fend st))
                            (skipn (Z.to_nat (fend st)) (format st))]))
    by (unfold invalid_format; intros r Hr; tauto).
  apply Hgoal. clear Hgoal.
  destruct (Ascii.eqb _ percent).
  - unfold substr. destruct (_ <? _); [cbn [fst]; discriminate|].
    apply on_result_append_fmt_not_invalid.
  - destruct (find _ _ 0 =? npos); [cbn [fst]; discriminate|].
    unfold substr. destruct (_ <? _); [cbn [fst]; discriminate|].
    apply on_result_append_fmt_not_invalid.
Qed.

Lemma c99_returns_int (text : str -> value -> option str) :
  returns_int (c99_vsnprintf text).
Proof.
  intros bfr n f x. unfold c99_vsnprintf.
  destruct (text f x); cbn [fst]; [unfold size|]; lia.
Qed.

(** The ways a binding by an [operator%] overload can end, for a renderer
    that returns an [int]: it succeeds, or throws "Format not found",
    "Invalid format" or [std::length_error].  It throws nothing else: not
    "Format mismatch", not "Format error", not [std::out_of_range]. *)
Theorem op_mod_outcomes (vsnprintf : renderer) (sizeof_bfr max_size : Z)
  (v : value) (st : fstring_state) :
  0 <= fend st -> size (format st) < npos ->
  returns_int vsnprintf -> max_size < 2 ^ 64 - 2 ^ 31 ->
  let o := fst (op_mod vsnprintf sizeof_bfr max_size v st) in
  o = Ok tt
  \/ o = Throw (invalid_argument "Format not found")
  \/ o = Throw (invalid_argument "Invalid format")
  \/ o = Throw length_error.
Proof.
  intros He Hsz Hint Hmax. cbv zeta.
  rewrite (op_mod_eq _ _ _ _ _ (conj He Hsz)).
  assert (Hrender : forall fstr st1,
            let o := fst (on_result (append_fmt vsnprintf sizeof_bfr max_size
                                       fstr (operand v)) st1) in
            o = Ok tt \/ o = Throw length_error).
  { intros fstr st1. cbv zeta. unfold on_result.
    pose proof (append_fmt_throw_keeps vsnprintf sizeof_bfr max_size fstr
                  (operand v) (result st1)) as Hk.
    pose proof (format_error_unreachable vsnprintf sizeof_bfr max_size fstr
                  (operand v) Hint Hmax) as Hne.
    destruct (append_fmt vsnprintf sizeof_bfr max_size fstr (operand v)
                (result st1)) as [[[]|ex] b']; cbn [fst snd] in *; [auto|].
    destruct (Hk ex eq_refl) as [_ Hr]. right.
    destruct (render_buffer_throws _ _ _ _ _ _ Hr) as [-> | ->];
      [reflexivity | congruence]. }
  unfold next_fmt_turn_plain.
  set (s := find (format st) percent (fend st)).
  destruct ((s =? npos) || (s + 1 =? size (format st))) eqn:Hc;
    [cbn [fst]; auto|].
  apply orb_false_iff in Hc. destruct Hc as [Hs _]. apply Z.eqb_neq in Hs.
  destruct (find_if_found _ _ _ _ He (eq_refl : find _ _ _ = s) Hs)
    as (Hrange & _ & _).
  assert (Hs1 : 0 <= s + 1) by lia.
  set (e1 := find_first_of (format st) (fmtChars v) (s + 1)).
  destruct (e1 =? npos) eqn:He1; [cbn [fst]; auto|].
  apply Z.eqb_neq in He1.
  destruct (find_if_found _ _ _ _ Hs1
              (eq_refl : find_first_of _ _ _ = e1) He1) as (Hr1 & Hmem & _).
  clearbody s e1.
  destruct (Ascii.eqb (at_ (format st) e1) percent) eqn:Hp.
  { apply Ascii.eqb_eq in Hp. rewrite Hp, fmtChars_no_percent in Hmem.
    discriminate. }
  destruct (find (fmtChars v) (at_ (format st) e1) 0 =? npos) eqn:Hfind.
  { apply Z.eqb_eq in Hfind. exfalso.
    refine (find_member _ _ _ Hmem Hfind). destruct v; reflexivity. }
  unfold substr. cbn [fstart fend].
  replace (size (format st) <? s) with false
    by (symmetry; apply Z.ltb_ge; lia).
  destruct (Hrender (firstn (Z.to_nat (Z.min (to_size_t (e1 + 1 - s))
                                         (size (format st) - s)))
                       (skipn (Z.to_nat s) (format st)))
              (mk_state s (e1 + 1) (format st)
                 (push_fragment
                    (firstn (Z.to_nat (s - fend st))
                       (skipn (Z.to_nat (fend st)) (format st)))
                    (size (firstn (Z.to_nat (s - fend st))
                             (skipn (Z.to_nat (fend st)) (format st))))
                    (result st)))) as [H | H]; rewrite H; auto.
Qed.




Lemma total_size_app (l1 l2 : list str) :
  total_size (l1 ++ l2) = total_size l1 + total_size l2.
Proof. induction l1 as [|s l1 IH]; cbn [total_size app]; lia. Qed.

Lemma to_size_t_add (a b c : Z) :
  to_size_t b = to_size_t c ->
  to_size_t (to_size_t a + b) = to_size_t (a + c).
Proof.
  unfold to_size_t. intros H.
  rewrite Zplus_mod_idemp_l.
  rewrite (Zplus_mod a b), (Zplus_mod a c), H. reflexivity.
Qed.

Lemma push_fragment_cached (s : str) (n : Z) (b : fstring_outputbuffer) :
  to_size_t n = to_size_t (size s) ->
  length_cached b -> length_cached (push_fragment s n b).
Proof.
  unfold length_cached, push_fragment. cbn [length fragments].
  intros Hn ->. rewrite total_size_app. cbn [total_size].
  rewrite Z.add_0_r. apply to_size_t_add, Hn.
Qed.

Lemma resize_size (max_size : Z) (bfr bfr' : str) (n : Z) :
  0 <= n -> resize max_size bfr n = Ok bfr' -> size bfr' = n.
Proof.
  intros Hn. unfold resize. destruct (max_size <? n); [discriminate|].
  intros H. injection H as <-. unfold size.
  rewrite length_app, length_firstn, repeat_length. lia.
Qed.

(** The fragment [append_fmt] pushes has the size it adds to [length]. *)
Lemma render_buffer_size (vsnprintf : renderer) (sizeof_bfr max_size : Z)
  (fstr : str) (v : value) (frag : str) (r : Z) :
  fst (render_buffer vsnprintf sizeof_bfr max_size fstr v) = Ok (frag, r) ->
  size frag = to_size_t r /\ 0 <= r.
Proof.
  assert (Htrim : forall r0 bfr,
            trim_buffer max_size r0 bfr = Ok (frag, r) ->
            size frag = to_size_t r /\ 0 <= r).
  { intros r0 bfr. unfold trim_buffer.
    destruct (resize max_size bfr (to_size_t r0)) as [bfr'|e] eqn:Hres;
      [|discriminate].
    destruct (r0 <? 0) eqn:Hneg; [discriminate|].
    intros H. injection H as <- <-. apply Z.ltb_ge in Hneg.
    split; [|exact Hneg].
    apply (resize_size _ _ _ _ (proj1 (to_size_t_range r0)) Hres). }
  unfold render_buffer.
  destruct (vsnprintf _ _ _ _) as [r1 bfr1].
  destruct (sizeof_bfr <=? to_size_t (r1 + 1)); [|apply Htrim].
  destruct (resize max_size bfr1 (to_size_t (r1 + 1))) as [bfr2|e];
    [|discriminate].
  destruct (vsnprintf _ _ _ _) as [r2 bfr3]. apply Htrim.
Qed.

Lemma preserves_bind (P : fstring_state -> Prop) {A B}
  (m : M fstring_state A) (k : A -> M fstring_state B) :
  preserves P m -> (forall a, preserves P (k a)) -> preserves P (bind m k).
Proof.
  intros Hm Hk st HP. unfold bind. specialize (Hm st HP).
  destruct (m st) as [[a|e] s']; cbn [snd] in *; [|exact Hm].
  apply Hk, Hm.
Qed.

Lemma preserves_cached_append (s : str) :
  preserves cached (on_result (append s)).
Proof.
  intros st H. unfold on_result, append, modify, cached. cbn [snd result].
  apply push_fragment_cached; [reflexivity | exact H].
Qed.

Lemma preserves_cached_append_fmt (vsnprintf : renderer)
  (sizeof_bfr max_size : Z) (fstr : str) (v : value) :
  preserves cached (on_result (append_fmt vsnprintf sizeof_bfr max_size fstr v)).
Proof.
  intros st H. unfold on_result, append_fmt, bind, lift, modify, cached.
  pose proof (render_buffer_size vsnprintf sizeof_bfr max_size fstr v) as Hsz.
  destruct (fst (render_buffer vsnprintf sizeof_bfr max_size fstr v))
    as [[frag r]|e]; cbn [snd result fst]; [|exact H].
  destruct (Hsz frag r eq_refl) as [Hfrag Hr].
  apply push_fragment_cached; [|exact H].
  rewrite Hfrag. unfold to_size_t. rewrite Zmod_mod. reflexivity.
Qed.

Ltac preserves_step :=
  match goal with
  | |- preserves _ (bind _ _) => apply preserves_bind; [|intros ?]
  | |- preserves _ (if ?c then _ else _) => destruct c
  | |- preserves cached (on_result (append _)) =>
      apply preserves_cached_append
  | |- preserves cached (on_result (append_fmt _ _ _ _ _)) =>
      apply preserves_cached_append_fmt
  | |- preserves _ _ => intros ? H; exact H
  end.

Lemma preserves_cached_next_fmt (chars : str) :
  preserves cached (next_fmt chars).
Proof.
  unfold next_fmt.
  apply preserves_bind; [intros ? H; exact H | intros fmt].
  apply preserves_bind; [|intros _; repeat preserves_step].
  induction (S (List.length fmt)) as [|budget IH]; cbn [next_fmt_loop].
  - intros ? H; exact H.
  - apply preserves_bind.
    + unfold next_fmt_turn. repeat preserves_step.
    + intros [|]; [intros ? H; exact H | exact IH].
Qed.

(** [length] stays the total size of the fragments (as a [size_t])
    through every operation of the state and of the handle, whether the
    operation returns or throws. *)
Theorem length_stays_cached (vsnprintf : renderer) (sizeof_bfr max_size : Z)
  (v : value) (chars s : str) (st : fstring_state) :
  length_cached (result st) ->
  length_cached (result (snd (next_fmt chars st)))
  /\ length_cached (result (snd (op_mod vsnprintf sizeof_bfr max_size v st)))
  /\ length_cached (result (snd (fstring_append s st)))
  /\ length_cached (result (snd (reset st)))
  /\ length_cached (result (snd (state_str st))).
Proof.
  intros H. repeat split.
  - apply (preserves_cached_next_fmt chars st H).
  - revert st H. change (preserves cached
                           (op_mod vsnprintf sizeof_bfr max_size v)).
    unfold op_mod, printfmt.
    apply preserves_bind; [apply preserves_cached_next_fmt | intros fstr].
    apply preserves_cached_append_fmt.
  - apply (preserves_cached_append s st H).
  - revert st H. change (preserves cached reset).
    unfold reset. repeat preserves_step.
  - revert st H. change (preserves cached state_str).
    unfold state_str. repeat preserves_step.
Qed.

(** ** The accumulator only grows *)

Lemma extends_refl (st : fstring_state) : extends st st.
Proof. exists []. symmetry. apply app_nil_r. Qed.

Lemma extends_same_result (st st' : fstring_state) :
  result st' = result st -> extends st st'.
Proof. intros H. exists []. rewrite H. symmetry. apply app_nil_r. Qed.

Lemma extends_trans (st1 st2 st3 : fstring_state) :
  extends st1 st2 -> extends st2 st3 -> extends st1 st3.
Proof.
  intros [m1 H1] [m2 H2]. exists (m1 ++ m2).
  rewrite H2, H1. symmetry. apply app_assoc.
Qed.

Lemma only_appends_bind {A B} (m : M fstring_state A)
  (k : A -> M fstring_state B) :
  only_appends m -> (forall a, only_appends (k a)) -> only_appends (bind m k).
Proof.
  intros Hm Hk st. unfold bind. specialize (Hm st).
  destruct (m st) as [[a|e] s']; cbn [snd] in *; [|exact Hm].
  exact (extends_trans _ _ _ Hm (Hk a s')).
Qed.

Lemma only_appends_append (s : str) : only_appends (on_result (append s)).
Proof. intros st. exists [s]. reflexivity. Qed.

Lemma only_appends_append_fmt (vsnprintf : renderer)
  (sizeof_bfr max_size : Z) (fstr : str) (v : value) :
  only_appends (on_result (append_fmt vsnprintf sizeof_bfr max_size fstr v)).
Proof.
  intros st. unfold on_result, append_fmt, bind, lift, modify.
  destruct (fst (render_buffer vsnprintf sizeof_bfr max_size fstr v))
    as [[frag r]|e]; cbn [snd].
  - exists [frag]. reflexivity.
  - apply extends_same_result. reflexivity.
Qed.

Ltac only_appends_step :=
  match goal with
  | |- only_appends (bind _ _) => apply only_appends_bind; [|intros ?]
  | |- only_appends (if ?c then _ else _) => destruct c
  | |- only_appends (on_result (append _)) => apply only_appends_append
  | |- only_appends (on_result (append_fmt _ _ _ _ _)) =>
      apply only_appends_append_fmt
  | |- only_appends _ => intros ?; apply extends_same_result; reflexivity
  end.

Lemma only_appends_next_fmt (chars : str) : only_appends (next_fmt chars).
Proof.
  unfold next_fmt.
  apply only_appends_bind; [intros ?; apply extends_same_result; reflexivity | intros fmt].
  apply only_appends_bind; [|intros _; repeat only_appends_step].
  induction (S (List.length fmt)) as [|budget IH]; cbn [next_fmt_loop].
  - intros ?; apply extends_same_result; reflexivity.
  - apply only_appends_bind.
    + unfold next_fmt_turn. repeat only_appends_step.
    + intros [|]; [intros ?; apply extends_same_result; reflexivity | exact IH].
Qed.

(** The accumulator only grows: after any operation, thrown or not, the
    fragments are those from before, unchanged and in the same order,
    followed by what the operation added. *)
Theorem fragments_only_appended (vsnprintf : renderer)
  (sizeof_bfr max_size : Z) (v : value) (chars s lhs : str)
  (st : fstring_state) :
  extends st (snd (next_fmt chars st))
  /\ extends st (snd (op_mod vsnprintf sizeof_bfr max_size v st))
  /\ extends st (snd (fstring_append s st))
  /\ extends st (snd (reset st))
  /\ extends st (snd (state_str st))
  /\ extends st (snd (op_shl lhs st)).
Proof.
  repeat split.
  - apply only_appends_next_fmt.
  - revert st. change (only_appends (op_mod vsnprintf sizeof_bfr max_size v)).
    unfold op_mod, printfmt.
    apply only_appends_bind; [apply only_appends_next_fmt | intros fstr].
    apply only_appends_append_fmt.
  - apply only_appends_append.
  - revert st. change (only_appends reset). unfold reset.
    repeat only_appends_step.
  - revert st. change (only_appends state_str). unfold state_str.
    repeat only_appends_step.
  - revert st. change (only_appends (op_shl lhs)). unfold op_shl, state_str.
    repeat only_appends_step.
Qed.

(** ** A handle after [reset] *)

(** After [reset] a binding goes as on a fresh handle on the same
    template: same outcome, same cursors, and the fragments it adds are
    those the fresh handle gets, placed after what was accumulated. *)
Theorem bind_after_reset_as_fresh (vsnprintf : renderer)
  (sizeof_bfr max_size : Z) (v : value) (st st1 : fstring_state) :
  reset st = (Ok tt, st1) ->
  let fresh := op_mod vsnprintf sizeof_bfr max_size v (state_new (format st)) in
  let again := op_mod vsnprintf sizeof_bfr max_size v st1 in
  fst again = fst fresh
  /\ fstart (snd again) = fstart (snd fresh)
  /\ fend (snd again) = fend (snd fresh)
  /\ format (snd again) = format st
  /\ fragments (result (snd again))
     = fragments (result st1) ++ fragments (result (snd fresh)).
Proof.
  intros Hreset. cbv zeta. rewrite reset_eq in Hreset.
  destruct (tail_of st) as [t|e]; [|discriminate].
  injection Hreset as <-.
  set (st1 := {| fstart := 0; fend := 0; format := format st;
                 result := push_fragment t (size t) (result st) |}).
  assert (Hscan : same_scan (fragments (result st1)) st1
                    (state_new (format st))).
  { repeat split. cbn. symmetry. apply app_nil_r. }
  destruct (scan_only_op_mod vsnprintf sizeof_bfr max_size v _ _ _ Hscan)
    as [Hout (Hs & He & Hf & Hfr)].
  pose proof (keeps_format_op_mod vsnprintf sizeof_bfr max_size v
                (state_new (format st))) as Hkeep.
  repeat split; try assumption. rewrite Hf. exact Hkeep.
Qed.

(** ** [str()] called again *)

Lemma tail_of_inside (st : fstring_state) :
  0 <= fend st <= size (format st) -> size (format st) < npos ->
  tail_of st = Ok (skipn (Z.to_nat (fend st)) (format st)).
Proof.
  intros He Hsz. unfold tail_of, substr_from, substr.
  replace (size (format st) <? fend st) with false
    by (symmetry; apply Z.ltb_ge; lia).
  rewrite firstn_all2; [reflexivity|].
  rewrite length_skipn. pose proof npos_value. unfold size in *. lia.
Qed.

(** [str()] is not idempotent: it appends the tail of the template each
    time, so a second call returns the first result followed by the tail
    once more; and writing a handle to a stream twice with [operator<<]
    writes the second copy with the tail doubled. *)
Theorem str_again_repeats_tail (lhs : str) (st : fstring_state) :
  0 <= fend st <= size (format st) -> size (format st) < npos ->
  let out := List.concat (fragments (result st)) in
  let tail := skipn (Z.to_nat (fend st)) (format st) in
  fst ((state_str ;;; state_str) st) = Ok (out ++ tail ++ tail)
  /\ fst ((lhs1 <- op_shl lhs ;; op_shl lhs1) st)
     = Ok (lhs ++ (out ++ tail) ++ (out ++ tail ++ tail)).
Proof.
  intros He Hsz. cbv zeta.
  assert (Hstr : forall st0, fend st0 = fend st -> format st0 = format st ->
            state_str st0
            = (Ok (List.concat (fragments (result st0))
                   ++ skipn (Z.to_nat (fend st)) (format st)),
               {| fstart := fstart st0; fend := fend st0;
                  format := format st0;
                  result := push_fragment
                              (skipn (Z.to_nat (fend st)) (format st))
                              (size (skipn (Z.to_nat (fend st)) (format st)))
                              (result st0) |})).
  { intros st0 He0 Hf0.
    pose proof (tail_of_inside st He Hsz) as Ht. unfold tail_of in Ht.
    unfold state_str. run_monad. cbn [fend format].
    rewrite He0, Hf0, Ht. cbn [result fstart fend format].
    unfold outputbuffer_str, push_fragment. cbn [fragments].
    rewrite concat_app. cbn [List.concat]. rewrite app_nil_r. reflexivity. }
  split.
  - unfold bind. rewrite (Hstr st eq_refl eq_refl).
    rewrite Hstr by reflexivity. cbn [fst result fragments push_fragment].
    rewrite concat_app. cbn [List.concat].
    rewrite app_nil_r, <- app_assoc. reflexivity.
  - unfold op_shl, bind, ret. rewrite (Hstr st eq_refl eq_refl).
    rewrite Hstr by reflexivity. cbn [fst result fragments push_fragment].
    rewrite concat_app. cbn [List.concat].
    rewrite app_nil_r, <- !app_assoc. reflexivity.
Qed.

(** ** [to_string] when an element cannot be formatted *)

Section JoinFailure.

Variable vsnprintf : renderer.
Variable sizeof_bfr : Z.
Variable max_size : Z.
Variable fstr : str.
Variable sep : str.

(** A binding on a fresh handle that fails is what makes
    [(fstring(fstr) % v).str()] fail: [str()] after a binding that
    succeeded finds its tail. *)
Lemma format_one_throw_inv (v : value) (e : exn) :
  size fstr < npos ->
  format_one vsnprintf sizeof_bfr max_size fstr v = Throw e ->
  fst (op_mod vsnprintf sizeof_bfr max_size v (state_new fstr)) = Throw e.
Proof.
  intros Hsz. unfold format_one. unfold bind at 1.
  assert (Hok : state_ok (state_new fstr)) by (split; cbn; [lia | exact Hsz]).
  pose proof (op_mod_cursor_inside vsnprintf sizeof_bfr max_size v
                (state_new fstr) Hok) as Hin.
  destruct (op_mod vsnprintf sizeof_bfr max_size v (state_new fstr))
    as [[[]|e'] s1]; cbn [fst snd] in *;
    [|intros H; injection H as ->; reflexivity].
  destruct (Hin eq_refl) as [Hrange Hfmt].
  rewrite state_str_eq, tail_of_inside; [discriminate | exact Hrange |].
  rewrite Hfmt. exact Hsz.
Qed.

Lemma to_string_rest_fails (v : value) (e : exn) (after : list value)
  (before : list value) :
  forall (outs : list str) (pre : list str) (st sx : fstring_state)
         (o : str),
    format sx = fstr -> same_scan pre st sx ->
    fst (state_str sx) = Ok o ->
    Forall2 (formatted vsnprintf sizeof_bfr max_size fstr) before outs ->
    fst (op_mod vsnprintf sizeof_bfr max_size v (state_new fstr)) = Throw e ->
    fst ((to_string_rest vsnprintf sizeof_bfr max_size
            (before ++ v :: after) sep ;;; state_str) st)
    = Throw e.
Proof.
  induction before as [|y before IH];
    intros outs pre st sx o Hfmt Hscan Ho Hall Hv.
  - cbn [app to_string_rest]. unfold bind at 1 2. rewrite reset_eq.
    rewrite state_str_eq in Ho. rewrite (same_scan_tail _ _ _ Hscan).
    destruct (tail_of sx) as [t|e0]; [|discriminate].
    unfold bind at 1. unfold fstring_append at 1.
    unfold on_result at 1, append at 1, modify at 1.
    cbn [result fstart fend format].
    set (st2 := {| fstart := 0; fend := 0; format := format st;
                   result := _ |}).
    assert (Hscan2 : same_scan (fragments (result st2)) st2
                       (state_new fstr)).
    { destruct Hscan as (_ & _ & Hf & _). subst st2.
      repeat split; cbn; auto using app_nil_r. congruence. }
    pose proof (scan_only_op_mod vsnprintf sizeof_bfr max_size v
                  _ _ _ Hscan2) as [Hout _].
    unfold op_mod_assign. unfold bind at 1.
    destruct (op_mod vsnprintf sizeof_bfr max_size v st2) as [o3 st3].
    cbn [fst snd] in *. rewrite Hout, Hv. reflexivity.
  - revert Hfmt. inversion Hall as [|y' oy rest' outs' Hy Hrest]; subst.
    intros Hfmt.
    cbn [app to_string_rest]. unfold bind at 1 2. rewrite reset_eq.
    rewrite state_str_eq in Ho. rewrite (same_scan_tail _ _ _ Hscan).
    destruct (tail_of sx) as [t|e0]; [|discriminate].
    unfold bind at 1. unfold fstring_append at 1.
    unfold on_result at 1, append at 1, modify at 1.
    cbn [result fstart fend format].
    set (st2 := {| fstart := 0; fend := 0; format := format st;
                   result := _ |}).
    assert (Hscan2 : same_scan (fragments (result st2)) st2
                       (state_new fstr)).
    { destruct Hscan as (_ & _ & Hf & _). subst st2.
      repeat split; cbn; auto using app_nil_r. congruence. }
    destruct (format_one_inv vsnprintf sizeof_bfr max_size fstr y oy Hy)
      as [Hbind Hstr].
    pose proof (scan_only_op_mod vsnprintf sizeof_bfr max_size y
                  _ _ _ Hscan2) as [Hout Hscan3].
    pose proof (keeps_format_op_mod vsnprintf sizeof_bfr max_size y
                  (state_new fstr)) as Hkeep.
    unfold op_mod_assign. unfold bind at 1.
    destruct (op_mod vsnprintf sizeof_bfr max_size y st2) as [o3 st3].
    cbn [fst snd] in *. rewrite Hout, Hbind.
    match goal with
    | |- fst ?run = _ =>
        change run
          with ((to_string_rest vsnprintf sizeof_bfr max_size
                   (before ++ v :: after) sep ;;; state_str) st3)
    end.
    apply (IH outs' (fragments (result st2)) st3
             (snd (op_mod vsnprintf sizeof_bfr max_size y (state_new fstr)))
             oy); assumption.
Qed.

(** [to_string] fails with the exception of the first element that the
    template cannot format on its own, whatever comes after it. *)
Theorem to_string_first_failure (first : value) (rest : list value)
  (before after : list value) (v : value) (outs : list str) (e : exn) :
  size fstr < npos ->
  first :: rest = before ++ v :: after ->
  Forall2 (formatted vsnprintf sizeof_bfr max_size fstr) before outs ->
  format_one vsnprintf sizeof_bfr max_size fstr v = Throw e ->
  to_string vsnprintf sizeof_bfr max_size fstr first rest sep = Throw e.
Proof.
  intros Hsz Hsplit Hall Hv.
  apply (format_one_throw_inv v e Hsz) in Hv.
  unfold to_string, op_mod_assign.
  destruct before as [|y before]; cbn [app] in Hsplit;
    injection Hsplit as -> ->.
  - unfold bind at 1.
    destruct (op_mod vsnprintf sizeof_bfr max_size v (state_new fstr))
      as [[[]|e'] s1]; cbn [fst] in *; [discriminate|].
    injection Hv as ->. reflexivity.
  - inversion Hall as [|y' oy rest' outs' Hy Hrest]; subst.
    destruct (format_one_inv vsnprintf sizeof_bfr max_size fstr y oy Hy)
      as [Hbind Hstr].
    pose proof (keeps_format_op_mod vsnprintf sizeof_bfr max_size y
                  (state_new fstr)) as Hkeep.
    unfold bind at 1.
    destruct (op_mod vsnprintf sizeof_bfr max_size y (state_new fstr))
      as [o1 s1] eqn:Hop. cbn [fst snd] in *. subst o1.
    apply (to_string_rest_fails v e after before outs' [] s1 s1 oy);
      auto.
    repeat split; reflexivity.
Qed.

End JoinFailure.

Lemma index_from_skip (p : ascii -> bool) (l1 l2 : str) (a : ascii) (i : Z) :
  forallb (fun x => negb (p x)) l1 = true -> p a = true ->
  index_from p (l1 ++ a :: l2) i = i + size l1.
Proof.
  revert i. induction l1 as [|x l1 IH]; intros i Hall Ha; cbn.
  - rewrite Ha. unfold size. cbn. lia.
  - cbn in Hall. apply andb_true_iff in Hall. destruct Hall as [Hx Hall].
    apply negb_true_iff in Hx. rewrite Hx, (IH _ Hall Ha).
    unfold size. cbn [List.length]. lia.
Qed.

Lemma skipn_size_app (l1 l2 : str) :
  skipn (Z.to_nat (size l1)) (l1 ++ l2) = l2.
Proof.
  unfold size. rewrite Nat2Z.id, skipn_app, skipn_all, Nat.sub_diag.
  reflexivity.
Qed.

Lemma size_app (l1 l2 : str) : size (l1 ++ l2) = size l1 + size l2.
Proof. unfold size. rewrite length_app. lia. Qed.

(** Searching from the end of [pre]: the first match is past [mid]. *)
Lemma find_if_skip (p : ascii -> bool) (pre mid post : str) (a : ascii) :
  forallb (fun x => negb (p x)) mid = true -> p a = true ->
  find_if p (pre ++ mid ++ a :: post) (size pre) = size pre + size mid.
Proof.
  intros Hall Ha. unfold find_if.
  replace (size (pre ++ mid ++ a :: post) <? size pre) with false.
  - rewrite skipn_size_app. apply index_from_skip; assumption.
  - symmetry. apply Z.ltb_ge. rewrite size_app.
    pose proof (size_nonneg (mid ++ a :: post)). lia.
Qed.

Lemma firstn_size_app (l1 l2 : str) :
  firstn (Z.to_nat (size l1)) (l1 ++ l2) = l1.
Proof.
  unfold size. rewrite Nat2Z.id, firstn_app, firstn_all, Nat.sub_diag.
  cbn [firstn]. apply app_nil_r.
Qed.

Lemma at_size_app (l1 l2 : str) (a : ascii) :
  at_ (l1 ++ a :: l2) (size l1) = a.
Proof. unfold at_, size. rewrite Nat2Z.id. apply nth_middle. Qed.

(** [operator%] on a state whose cursor stands before a segment. *)
Lemma op_mod_on_segment (vsnprintf : renderer) (sizeof_bfr max_size : Z)
  (st : fstring_state) (done lit d rest frag : str) (v : value) (r : Z) :
  format st = done ++ lit ++ d ++ rest ->
  fend st = size done ->
  size (format st) < npos ->
  forallb (fun x => negb (Ascii.eqb percent x)) lit = true ->
  directive_for v d ->
  fst (render_buffer vsnprintf sizeof_bfr max_size d (operand v))
  = Ok (frag, r) ->
  op_mod vsnprintf sizeof_bfr max_size v st
  = (Ok tt,
     {| fstart := size done + size lit;
        fend := size (done ++ lit ++ d);
        format := format st;
        result := push_fragment frag r
                    (push_fragment lit (size lit) (result st)) |}).
Proof.
  intros Hfmt Hfend Hsz Hlit (body & c & -> & Hc & Hbody) Hrender.
  assert (Hok : state_ok st)
    by (split; [rewrite Hfend; apply size_nonneg | exact Hsz]).
  rewrite (op_mod_eq _ _ _ _ _ Hok). unfold next_fmt_turn_plain.
  rewrite Hfend.
  assert (Hs : find (format st) percent (size done) = size done + size lit).
  { rewrite Hfmt. unfold find. cbn [app].
    apply find_if_skip; [exact Hlit | apply Ascii.eqb_refl]. }
  rewrite Hs.
  assert (Hsizes : size (format st)
                   = size done + size lit + (1 + size body + 1) + size rest).
  { rewrite Hfmt, !size_app. unfold size. cbn [List.length app].
    rewrite length_app. cbn [List.length]. lia. }
  pose proof (size_nonneg done) as Hd. pose proof (size_nonneg lit) as Hl.
  pose proof (size_nonneg body) as Hb. pose proof (size_nonneg rest) as Hr.
  pose proof npos_value as Hnpos.
  replace ((size done + size lit =? npos)
           || (size done + size lit + 1 =? size (format st)))
    with false
    by (symmetry; apply orb_false_iff; split; apply Z.eqb_neq; lia).
  assert (He1 : find_first_of (format st) (fmtChars v)
                  (size done + size lit + 1)
                = size done + size lit + 1 + size body).
  { rewrite Hfmt. unfold find_first_of.
    replace (done ++ lit ++ (percent :: body ++ [c]) ++ rest)
      with ((done ++ lit ++ [percent]) ++ body ++ c :: rest)
      by (rewrite <- !app_assoc; cbn [app]; rewrite <- !app_assoc;
          reflexivity).
    replace (size done + size lit + 1) with (size (done ++ lit ++ [percent]))
      by (rewrite !size_app; unfold size; cbn [List.length]; lia).
    apply find_if_skip; assumption. }
  rewrite He1.
  replace (size done + size lit + 1 + size body =? npos) with false
    by (symmetry; apply Z.eqb_neq; lia).
  assert (Hat : at_ (format st) (size done + size lit + 1 + size body) = c).
  { rewrite Hfmt.
    replace (done ++ lit ++ (percent :: body ++ [c]) ++ rest)
      with ((done ++ lit ++ percent :: body) ++ c :: rest)
      by (rewrite <- !app_assoc; cbn [app]; rewrite <- !app_assoc;
          reflexivity).
    replace (size done + size lit + 1 + size body)
      with (size (done ++ lit ++ percent :: body))
      by (rewrite !size_app; unfold size; cbn [List.length]; lia).
    apply at_size_app. }
  rewrite Hat.
  assert (Hcp : Ascii.eqb c percent = false).
  { destruct (Ascii.eqb c percent) eqn:Hp; [|reflexivity].
    apply Ascii.eqb_eq in Hp. rewrite Hp in Hc.
    pose proof (fmtChars_no_percent v) as Hnp. congruence. }
  rewrite Hcp.
  assert (Hfind : (find (fmtChars v) c 0 =? npos) = false).
  { apply Z.eqb_neq. apply find_member; [|exact Hc].
    destruct v; reflexivity. }
  rewrite Hfind. cbn [fstart fend format result].
  unfold substr.
  replace (size (format st) <? size done + size lit) with false
    by (symmetry; apply Z.ltb_ge; lia).
  rewrite (to_size_t_small
             (size done + size lit + 1 + size body + 1
              - (size done + size lit))) by lia.
  rewrite Z.min_l by lia.
  assert (Hdir : firstn
                   (Z.to_nat (size done + size lit + 1 + size body + 1
                              - (size done + size lit)))
                   (skipn (Z.to_nat (size done + size lit)) (format st))
                 = percent :: body ++ [c]).
  { rewrite Hfmt.
    replace (done ++ lit ++ (percent :: body ++ [c]) ++ rest)
      with ((done ++ lit) ++ (percent :: body ++ [c]) ++ rest)
      by (rewrite <- !app_assoc; reflexivity).
    replace (size done + size lit) with (size (done ++ lit))
      by apply size_app.
    rewrite skipn_size_app.
    replace (size (done ++ lit) + 1 + size body + 1 - size (done ++ lit))
      with (size (percent :: body ++ [c]))
      by (unfold size; cbn [List.length]; rewrite length_app;
          cbn [List.length]; lia).
    apply firstn_size_app. }
  rewrite Hdir.
  assert (Hpiece : firstn (Z.to_nat (size done + size lit - size done))
                     (skipn (Z.to_nat (size done)) (format st)) = lit).
  { rewrite Hfmt, skipn_size_app.
    replace (size done + size lit - size done) with (size lit) by lia.
    apply firstn_size_app. }
  rewrite Hpiece.
  unfold on_result, append_fmt, bind, lift, modify. rewrite Hrender.
  cbn [fst snd result fstart fend format]. do 3 f_equal.
  rewrite !size_app. unfold size. cbn [List.length].
  rewrite length_app. cbn [List.length]. lia.
Qed.

Section Chain.

Variable vsnprintf : renderer.
Variable sizeof_bfr : Z.
Variable max_size : Z.

Lemma op_mod_chain_on_segments (tail : str) (segs : list segment) :
  forall (st : fstring_state) (done : str),
    format st = done ++ template segs tail ->
    fend st = size done ->
    size (format st) < npos ->
    Forall (segment_ok vsnprintf sizeof_bfr max_size) segs ->
    fst ((op_mod_chain vsnprintf sizeof_bfr max_size (map seg_value segs) ;;;
          state_str) st)
    = Ok (List.concat (fragments (result st)) ++ expected segs tail).
Proof.
  induction segs as [|g segs IH]; intros st done Hfmt Hfend Hsz Hall.
  - cbn [map op_mod_chain]. unfold bind, ret.
    rewrite state_str_eq, tail_of_inside.
    + rewrite Hfmt, Hfend. unfold template, expected. cbn [map List.concat app].
      rewrite skipn_size_app. reflexivity.
    + rewrite Hfmt, Hfend, size_app. pose proof (size_nonneg done).
      pose proof (size_nonneg (template [] tail)). lia.
    + exact Hsz.
  - inversion Hall as [|g' segs' (Hlit & Hdir & r & Hrender) Hrest]; subst.
    cbn [map op_mod_chain]. unfold bind at 1 2.
    assert (Hfmt' : format st
                    = done ++ seg_literal g ++ seg_directive g
                      ++ template segs tail).
    { rewrite Hfmt. unfold template. cbn [map List.concat].
      rewrite <- !app_assoc. reflexivity. }
    rewrite (op_mod_on_segment vsnprintf sizeof_bfr max_size st done
               (seg_literal g) (seg_directive g) (template segs tail)
               (seg_fragment g) (seg_value g) r Hfmt' Hfend Hsz Hlit Hdir
               Hrender).
    match goal with
    | |- context [op_mod_chain _ _ _ _ ?s1] => set (st1 := s1)
    end.
    change (fst ((op_mod_chain vsnprintf sizeof_bfr max_size
                    (map seg_value segs) ;;; state_str) st1)
            = Ok (List.concat (fragments (result st))
                  ++ expected (g :: segs) tail)).
    rewrite (IH _ (done ++ seg_literal g ++ seg_directive g)).
    + subst st1. cbn [result fragments push_fragment]. unfold expected.
      cbn [map List.concat]. rewrite !concat_app. cbn [List.concat].
      rewrite !app_nil_r, <- !app_assoc. reflexivity.
    + subst st1. cbn [format]. rewrite Hfmt'. rewrite <- !app_assoc.
      reflexivity.
    + reflexivity.
    + exact Hsz.
    + exact Hrest.
Qed.

(** A template made of N stretches, each a literal text without [%]
    followed by a directive that ends in the first whitelisted character
    of the value bound to it, and a tail: binding the N values in order
    and calling [str()] gives the literal texts and the rendered fragments
    interleaved in the order of the template, then the tail.  Each value
    is rendered under its own directive, taken from the template whole. *)
Theorem format_all_interleaves (segs : list segment) (tail : str) :
  size (template segs tail) < npos ->
  Forall (segment_ok vsnprintf sizeof_bfr max_size) segs ->
  format_all vsnprintf sizeof_bfr max_size (template segs tail)
    (map seg_value segs)
  = Ok (expected segs tail).
Proof.
  intros Hsz Hall. unfold format_all.
  apply (op_mod_chain_on_segments tail segs (state_new (template segs tail))
           []); auto.
Qed.

End Chain.

(** ** Handles and the reference count

    The [fstring_state] objects live on a heap; an [fstring] is its member
    [state], the address of one of them.  An operation through an address
    that holds no live object is undefined behaviour: [None]. *)

Lemma load_store_same (p : nat) (c : option fstring_object) (hp : heap) :
  (p < List.length hp)%nat -> nth_error (store p c hp) p = Some c.
Proof.
  revert p. induction hp as [|x t IH]; intros [|p] Hp; cbn in *;
    try lia; [reflexivity | apply IH; lia].
Qed.

Lemma load_store_other (p q : nat) (c : option fstring_object) (hp : heap) :
  p <> q -> nth_error (store p c hp) q = nth_error hp q.
Proof.
  revert p q. induction hp as [|x t IH]; intros [|p] [|q] Hpq; cbn;
    try reflexivity; try lia. apply IH. lia.
Qed.

Lemma store_store (p : nat) (c1 c2 : option fstring_object) (hp : heap) :
  store p c2 (store p c1 hp) = store p c2 hp.
Proof.
  revert p. induction hp as [|x t IH]; intros [|p]; cbn; try reflexivity.
  f_equal. apply IH.
Qed.

Lemma store_fresh (c1 c2 : option fstring_object) (hp : heap) :
  store (List.length hp) c2 (hp ++ [c1]) = hp ++ [c2].
Proof. induction hp as [|x t IH]; cbn; [reflexivity | f_equal; exact IH]. Qed.

Lemma load_fresh (o : fstring_object) (hp : heap) :
  load (List.length hp) (hp ++ [Some o]) = Some o.
Proof.
  unfold load. rewrite nth_error_app2 by lia. rewrite Nat.sub_diag.
  reflexivity.
Qed.






Lemma firstn_length_app (hp : heap) (x : option fstring_object) :
  firstn (List.length hp) (hp ++ [x]) = hp.
Proof.
  rewrite firstn_app, firstn_all, Nat.sub_diag. cbn [firstn].
  apply app_nil_r.
Qed.

(** A copy of a handle shares the accumulation: binding through the copy
    and calling [str()] on the original gives what the chain on one handle
    gives.  Both handles hold the same address, the count is 2 once the
    temporary is gone, and the other objects of the heap are untouched. *)
Theorem copy_shares_accumulation (vsnprintf : renderer)
  (sizeof_bfr max_size : Z) (fstr : str) (v : value) (hp : heap) :
  exists (hp' : heap) (o : fstring_object),
    bind_through_copy vsnprintf sizeof_bfr max_size fstr v hp
    = Some (List.length hp, List.length hp,
            format_one vsnprintf sizeof_bfr max_size fstr v, hp')
    /\ load (List.length hp) hp' = Some o
    /\ references o = 2
    /\ firstn (List.length hp) hp' = hp.
Proof.
  unfold bind_through_copy, format_one.
  unfold hbind at 1, fstring_new.
  unfold hbind at 1, fstring_copy, hbind at 1, retain, hret.
  rewrite load_fresh, store_fresh. cbn [object_state references].
  unfold hbind at 1, fstring_op_mod, returning_copy.
  unfold hbind at 1, on_state. rewrite load_fresh.
  cbn [object_state references]. unfold bind at 1.
  destruct (op_mod vsnprintf sizeof_bfr max_size v (state_new fstr))
    as [[[]|e] st1].
  - rewrite store_fresh.
    unfold hbind at 1, fstring_copy, hbind at 1, retain, hret.
    rewrite load_fresh, store_fresh. cbn [object_state references].
    unfold hbind at 1, fstring_delete, release.
    rewrite load_fresh, store_fresh. cbn [object_state references].
    change (1 + 1 + 1 - 1 =? 0) with false. cbv iota.
    unfold hbind at 1, fstring_str, on_state. rewrite load_fresh.
    cbn [object_state references].
    destruct (state_str st1) as [r st2]. rewrite store_fresh.
    eexists. eexists. split; [reflexivity|].
    rewrite load_fresh, firstn_length_app. auto.
  - rewrite store_fresh. unfold hret.
    eexists. eexists. split; [reflexivity|].
    rewrite load_fresh, firstn_length_app. auto.
Qed.

(** ** The escape, for a caller that allows [%] *)

(** The [%%] escape works for a caller of [next_fmt] that puts [%] among
    the allowed characters: one turn of the loop appends the literal text
    before it and a single [%], leaves [fend] just past the pair, and goes
    round again without resolving a directive. *)
Theorem escape_consumed_when_percent_allowed (chars : str)
  (st : fstring_state) (done pre rest : str) :
  format st = done ++ pre ++ percent :: percent :: rest ->
  fend st = size done ->
  size (format st) < npos ->
  forallb (fun x => negb (Ascii.eqb percent x)) pre = true ->
  mem percent chars = true ->
  next_fmt_turn chars st
  = (Ok false,
     {| fstart := size done + size pre;
        fend := size done + size pre + 2;
        format := format st;
        result := push_fragment (lit "%") 1
                    (push_fragment pre (size pre) (result st)) |}).
Proof.
  intros Hfmt Hfend Hsz Hlit Hchars.
  assert (Hok : state_ok st)
    by (split; [rewrite Hfend; apply size_nonneg | exact Hsz]).
  rewrite (next_fmt_turn_eq _ _ Hok). unfold next_fmt_turn_plain.
  rewrite Hfend.
  assert (Hs : find (format st) percent (size done) = size done + size pre).
  { rewrite Hfmt. unfold find.
    apply find_if_skip; [exact Hlit | apply Ascii.eqb_refl]. }
  rewrite Hs.
  assert (Hsizes : size (format st)
                   = size done + size pre + 2 + size rest).
  { rewrite Hfmt, !size_app. unfold size. cbn [List.length]. lia. }
  pose proof (size_nonneg done) as Hd. pose proof (size_nonneg pre) as Hl.
  pose proof (size_nonneg rest) as Hr. pose proof npos_value as Hnpos.
  replace ((size done + size pre =? npos)
           || (size done + size pre + 1 =? size (format st)))
    with false
    by (symmetry; apply orb_false_iff; split; apply Z.eqb_neq; lia).
  assert (He1 : find_first_of (format st) chars (size done + size pre + 1)
                = size done + size pre + 1).
  { rewrite Hfmt. unfold find_first_of.
    replace (done ++ pre ++ percent :: percent :: rest)
      with ((done ++ pre ++ [percent]) ++ [] ++ percent :: rest)
      by (rewrite <- !app_assoc; reflexivity).
    replace (size done + size pre + 1) with (size (done ++ pre ++ [percent]))
      by (rewrite !size_app; unfold size; cbn [List.length]; lia).
    rewrite (find_if_skip _ _ [] rest percent); [|reflexivity | exact Hchars].
    unfold size. cbn [List.length]. lia. }
  rewrite He1.
  replace (size done + size pre + 1 =? npos) with false
    by (symmetry; apply Z.eqb_neq; lia).
  assert (Hat : at_ (format st) (size done + size pre + 1) = percent).
  { rewrite Hfmt.
    replace (done ++ pre ++ percent :: percent :: rest)
      with ((done ++ pre ++ [percent]) ++ percent :: rest)
      by (rewrite <- !app_assoc; reflexivity).
    replace (size done + size pre + 1) with (size (done ++ pre ++ [percent]))
      by (rewrite !size_app; unfold size; cbn [List.length]; lia).
    apply at_size_app. }
  rewrite Hat, Ascii.eqb_refl.
  assert (Hpiece : firstn (Z.to_nat (size done + size pre - size done))
                     (skipn (Z.to_nat (size done)) (format st)) = pre).
  { rewrite Hfmt, skipn_size_app.
    replace (size done + size pre - size done) with (size pre) by lia.
    apply firstn_size_app. }
  rewrite Hpiece.
  replace (size done + size pre + 1 + 1) with (size done + size pre + 2)
    by lia.
  reflexivity.
Qed.

(** ** Instances of the further properties *)

Lemma next_fmt_loop_terminates_witness :
  0 <= fend (state_new (lit "50%% or %d"))
  /\ size (format (state_new (lit "50%% or %d"))) < npos
  /\ (List.length (format (state_new (lit "50%% or %d"))) < 100)%nat
  /\ fst (next_fmt_loop 100 (lit "d%") (state_new (lit "50%% or %d")))
     <> Throw loop_budget.
Proof.
  assert (H1 : 0 <= fend (state_new (lit "50%% or %d"))) by (cbn; lia).
  assert (H2 : size (format (state_new (lit "50%% or %d"))) < npos)
    by reflexivity.
  assert (H3 : (List.length (format (state_new (lit "50%% or %d")))
                < 100)%nat) by (vm_compute; lia).
  split; [exact H1|]. split; [exact H2|]. split; [exact H3|].
  exact (proj1 (proj2 (next_fmt_loop_terminates (lit "d%")
                         (state_new (lit "50%% or %d")) 100 H1 H2 H3))).
Defined.

Lemma next_fmt_resolves_first_directive_witness :
  let st := state_new (lit "x = %5d;") in
  let st' := {| fstart := 4; fend := 7; format := lit "x = %5d;";
                result := {| fragments := [lit "x = "]; length := 4 |} |} in
  0 <= fend st
  /\ size (format st) < npos
  /\ mem percent (lit "di") = false
  /\ next_fmt (lit "di") st = (Ok (lit "%5d"), st')
  /\ firstn (Z.to_nat (fend st' - fend st))
       (skipn (Z.to_nat (fend st)) (format st))
     = List.concat
         [firstn (Z.to_nat (fstart st' - fend st))
            (skipn (Z.to_nat (fend st)) (format st)); lit "%5d"].
Proof.
  cbv zeta.
  set (st := state_new (lit "x = %5d;")).
  set (st' := {| fstart := 4; fend := 7; format := lit "x = %5d;";
                 result := {| fragments := [lit "x = "]; length := 4 |} |}).
  assert (H1 : 0 <= fend st) by (cbn; lia).
  assert (H2 : size (format st) < npos) by reflexivity.
  assert (H3 : mem percent (lit "di") = false) by reflexivity.
  assert (H4 : next_fmt (lit "di") st = (Ok (lit "%5d"), st'))
    by reflexivity.
  split; [exact H1|]. split; [exact H2|]. split; [exact H3|].
  split; [exact H4|].
  pose proof (next_fmt_resolves_first_directive (lit "di") st st'
                (lit "%5d") H1 H2 H3 H4) as Hall.
  cbv zeta in Hall.
  exact (proj2 (proj2 (proj2 (proj2 (proj2 (proj2 (proj2 (proj2
           (proj2 Hall))))))))).
Defined.

Lemma invalid_format_iff_witness :
  let st := state_new (lit "n: %s") in
  0 <= fend st
  /\ size (format st) < npos
  /\ fst (op_mod printf_renderer sizeof_string_lp64 max_size_lp64
            (int_value 3) st)
     = Throw (invalid_argument "Invalid format")
  /\ fragments (result (snd (op_mod printf_renderer sizeof_string_lp64
                               max_size_lp64 (int_value 3) st)))
     = [lit "n: "].
Proof.
  cbv zeta. set (st := state_new (lit "n: %s")).
  assert (H1 : 0 <= fend st) by (cbn; lia).
  assert (H2 : size (format st) < npos) by reflexivity.
  pose proof (invalid_format_iff printf_renderer sizeof_string_lp64
                max_size_lp64 (int_value 3) st H1 H2) as Hall.
  cbv zeta in Hall. destruct Hall as [Hiff Hstate].
  assert (Hthrown : fst (op_mod printf_renderer sizeof_string_lp64
                           max_size_lp64 (int_value 3) st)
                    = Throw (invalid_argument "Invalid format")).
  { apply Hiff. split; [vm_compute; discriminate|].
    split; [vm_compute; discriminate | reflexivity]. }
  split; [exact H1|]. split; [exact H2|]. split; [exact Hthrown|].
  exact (proj2 (proj2 (Hstate Hthrown))).
Defined.

Lemma op_mod_outcomes_witness :
  let st := state_new (lit "n: %d") in
  let o := fst (op_mod printf_renderer sizeof_string_lp64 max_size_lp64
                  (int_value 3) st) in
  0 <= fend st
  /\ size (format st) < npos
  /\ returns_int printf_renderer
  /\ max_size_lp64 < 2 ^ 64 - 2 ^ 31
  /\ (o = Ok tt
      \/ o = Throw (invalid_argument "Format not found")
      \/ o = Throw (invalid_argument "Invalid format")
      \/ o = Throw length_error).
Proof.
  cbv zeta. set (st := state_new (lit "n: %d")).
  assert (H1 : 0 <= fend st) by (cbn; lia).
  assert (H2 : size (format st) < npos) by reflexivity.
  assert (H3 : returns_int printf_renderer) by apply c99_returns_int.
  assert (H4 : max_size_lp64 < 2 ^ 64 - 2 ^ 31) by reflexivity.
  split; [exact H1|]. split; [exact H2|]. split; [exact H3|].
  split; [exact H4|].
  exact (op_mod_outcomes printf_renderer sizeof_string_lp64 max_size_lp64
           (int_value 3) st H1 H2 H3 H4).
Defined.


Lemma length_stays_cached_witness :
  let st := state_new (lit "<%d>") in
  length_cached (result st)
  /\ length_cached
       (result (snd (op_mod printf_renderer sizeof_string_lp64 max_size_lp64
                       (int_value 12) st)))
  /\ length_cached (result (snd (state_str st))).
Proof.
  cbv zeta. set (st := state_new (lit "<%d>")).
  assert (H1 : length_cached (result st)) by reflexivity.
  pose proof (length_stays_cached printf_renderer sizeof_string_lp64
                max_size_lp64 (int_value 12) (lit "di") (lit ", ") st H1)
    as (_ & Hbind & _ & _ & Hstr).
  split; [exact H1|]. split; [exact Hbind | exact Hstr].
Defined.

Lemma bind_after_reset_as_fresh_witness :
  let st := snd (op_mod printf_renderer sizeof_string_lp64 max_size_lp64
                   (int_value 1) (state_new (lit "<%d>"))) in
  let st1 := {| fstart := 0; fend := 0; format := lit "<%d>";
                result := {| fragments := [lit "<"; lit "1"; lit ">"];
                             length := 3 |} |} in
  reset st = (Ok tt, st1)
  /\ fragments (result (snd (op_mod printf_renderer sizeof_string_lp64
                               max_size_lp64 (int_value 2) st1)))
     = [lit "<"; lit "1"; lit ">"] ++ [lit "<"; lit "2"].
Proof.
  cbv zeta.
  set (st := snd (op_mod printf_renderer sizeof_string_lp64 max_size_lp64
                    (int_value 1) (state_new (lit "<%d>")))).
  set (st1 := {| fstart := 0; fend := 0; format := lit "<%d>";
                 result := {| fragments := [lit "<"; lit "1"; lit ">"];
                              length := 3 |} |}).
  assert (H1 : reset st = (Ok tt, st1)) by reflexivity.
  split; [exact H1|].
  pose proof (bind_after_reset_as_fresh printf_renderer sizeof_string_lp64
                max_size_lp64 (int_value 2) st st1 H1) as Hall.
  cbv zeta in Hall.
  exact (proj2 (proj2 (proj2 (proj2 Hall)))).
Defined.

Lemma str_again_repeats_tail_witness :
  let st := snd (op_mod printf_renderer sizeof_string_lp64 max_size_lp64
                   (int_value 7) (state_new (lit "<%d>"))) in
  0 <= fend st <= size (format st)
  /\ size (format st) < npos
  /\ fst ((state_str ;;; state_str) st) = Ok (lit "<7>>")
  /\ fst ((lhs1 <- op_shl (lit "out: ") ;; op_shl lhs1) st)
     = Ok (lit "out: <7><7>>").
Proof.
  cbv zeta.
  set (st := snd (op_mod printf_renderer sizeof_string_lp64 max_size_lp64
                    (int_value 7) (state_new (lit "<%d>")))).
  assert (H1 : 0 <= fend st <= size (format st))
    by (vm_compute; split; discriminate).
  assert (H2 : size (format st) < npos) by reflexivity.
  split; [exact H1|]. split; [exact H2|].
  exact (str_again_repeats_tail (lit "out: ") st H1 H2).
Defined.

Lemma to_string_first_failure_witness :
  size (lit "<%d>") < npos
  /\ int_value 1 :: [int_value 2; c_string (lit "three"); int_value 4]
     = [int_value 1; int_value 2] ++ c_string (lit "three") :: [int_value 4]
  /\ Forall2 (formatted printf_renderer sizeof_string_lp64 max_size_lp64
                (lit "<%d>"))
       [int_value 1; int_value 2] [lit "<1>"; lit "<2>"]
  /\ format_one printf_renderer sizeof_string_lp64 max_size_lp64
       (lit "<%d>") (c_string (lit "three"))
     = Throw (invalid_argument "Invalid format")
  /\ to_string printf_renderer sizeof_string_lp64 max_size_lp64 (lit "<%d>")
       (int_value 1) [int_value 2; c_string (lit "three"); int_value 4]
       (lit ", ")
     = Throw (invalid_argument "Invalid format").
Proof.
  assert (H1 : size (lit "<%d>") < npos) by reflexivity.
  assert (H2 : int_value 1
               :: [int_value 2; c_string (lit "three"); int_value 4]
               = [int_value 1; int_value 2]
                 ++ c_string (lit "three") :: [int_value 4]) by reflexivity.
  assert (H3 : Forall2 (formatted printf_renderer sizeof_string_lp64
                          max_size_lp64 (lit "<%d>"))
                 [int_value 1; int_value 2] [lit "<1>"; lit "<2>"])
    by (repeat constructor).
  assert (H4 : format_one printf_renderer sizeof_string_lp64 max_size_lp64
                 (lit "<%d>") (c_string (lit "three"))
               = Throw (invalid_argument "Invalid format")) by reflexivity.
  split; [exact H1|]. split; [exact H2|]. split; [exact H3|].
  split; [exact H4|].
  exact (to_string_first_failure printf_renderer sizeof_string_lp64
           max_size_lp64 (lit "<%d>") (lit ", ") (int_value 1)
           [int_value 2; c_string (lit "three"); int_value 4]
           [int_value 1; int_value 2] [int_value 4]
           (c_string (lit "three")) [lit "<1>"; lit "<2>"]
           (invalid_argument "Invalid format") H1 H2 H3 H4).
Defined.

Lemma format_all_interleaves_witness :
  let segs :=
    [ {| seg_literal := lit "Testing..."; seg_directive := lit "%d";
         seg_value := int_value 1; seg_fragment := lit "1" |};
      {| seg_literal := lit ", "; seg_directive := lit "%s";
         seg_value := std_string (lit "two"); seg_fragment := lit "two" |};
      {| seg_literal := lit ", "; seg_directive := lit "%d";
         seg_value := int_value 42; seg_fragment := lit "42" |} ] in
  size (template segs (lit "!")) < npos
  /\ Forall (segment_ok printf_renderer sizeof_string_lp64 max_size_lp64)
       segs
  /\ format_all printf_renderer sizeof_string_lp64 max_size_lp64
       (lit "Testing...%d, %s, %d!")
       [int_value 1; std_string (lit "two"); int_value 42]
     = Ok (lit "Testing...1, two, 42!").
Proof.
  cbv zeta.
  set (segs :=
    [ {| seg_literal := lit "Testing..."; seg_directive := lit "%d";
         seg_value := int_value 1; seg_fragment := lit "1" |};
      {| seg_literal := lit ", "; seg_directive := lit "%s";
         seg_value := std_string (lit "two"); seg_fragment := lit "two" |};
      {| seg_literal := lit ", "; seg_directive := lit "%d";
         seg_value := int_value 42; seg_fragment := lit "42" |} ]).
  assert (H1 : size (template segs (lit "!")) < npos) by reflexivity.
  assert (H2 : Forall (segment_ok printf_renderer sizeof_string_lp64
                         max_size_lp64) segs).
  { repeat constructor; cbn [seg_value seg_directive seg_fragment].
    - exists [], "d"%char. repeat split.
    - exists 1. reflexivity.
    - exists [], "s"%char. repeat split.
    - exists 3. reflexivity.
    - exists [], "d"%char. repeat split.
    - exists 2. reflexivity. }
  split; [exact H1|]. split; [exact H2|].
  exact (format_all_interleaves printf_renderer sizeof_string_lp64
           max_size_lp64 segs (lit "!") H1 H2).
Defined.


Lemma escape_consumed_when_percent_allowed_witness :
  let st := state_new (lit "50%% or %d") in
  format st = [] ++ lit "50" ++ percent :: percent :: lit " or %d"
  /\ fend st = size []
  /\ size (format st) < npos
  /\ forallb (fun x => negb (Ascii.eqb percent x)) (lit "50") = true
  /\ mem percent (lit "d%") = true
  /\ next_fmt_turn (lit "d%") st
     = (Ok false,
        {| fstart := 2; fend := 4; format := lit "50%% or %d";
           result := {| fragments := [lit "50"; lit "%"]; length := 3 |} |}).
Proof.
  cbv zeta. set (st := state_new (lit "50%% or %d")).
  assert (H1 : format st
               = [] ++ lit "50" ++ percent :: percent :: lit " or %d")
    by reflexivity.
  assert (H2 : fend st = size []) by reflexivity.
  assert (H3 : size (format st) < npos) by reflexivity.
  assert (H4 : forallb (fun x => negb (Ascii.eqb percent x)) (lit "50")
               = true) by reflexivity.
  assert (H5 : mem percent (lit "d%") = true) by reflexivity.
  split; [exact H1|]. split; [exact H2|]. split; [exact H3|].
  split; [exact H4|]. split; [exact H5|].
  exact (escape_consumed_when_percent_allowed (lit "d%") st [] (lit "50")
           (lit " or %d") H1 H2 H3 H4 H5).
Defined.
